(** * Crypme2: the technical-analysis scoring engine

    A shallow embedding of the indicator helpers of the futures dashboard
    (calcRSI, calcEMA, calcMACDHist, calcVolumeProfile) and of the
    Node analysis service (mean, computeIndicators, the /api/futures/analyze
    handler), with the properties the specification states about them.

    Numbers.  A JavaScript number is modelled by [number]: a finite value
    carried exactly as a rational, the two infinities, or NaN.  Rounding and
    overflow of binary64 are abstracted (finite arithmetic is exact); the
    special values, division by zero, the comparisons with NaN, truthiness
    and strict equality behave as in JavaScript.  [undefined] only ever
    reaches arithmetic or a truthiness test in this code, where it acts as
    NaN, so an out-of-range read yields [NaN].

    Because of that abstraction the theorems are stated so that rounding
    does not matter to them: as equations between the operations of the
    code, applied in the order of the code, or about which cells are
    defined, about comparisons, and about values that are exact in binary64
    as well (an RSI of 100 or 0, a score threshold).  The few statements
    that rest on exact arithmetic say so. *)

From Stdlib Require Import QArith Qround Lqa Lia ZArith Sorted.
From stdpp Require Import gmap strings list fin_maps.

Local Open Scope Q_scope.

(** ** JavaScript numbers *)

Module JS.

Inductive number : Type :=
| Fin (q : Q)        (* a finite value *)
| Inf (pos : bool)   (* Infinity when [pos], -Infinity otherwise *)
| NaN.

Definition Qltb (a b : Q) : bool := negb (Qle_bool b a).
Definition Qzero (a : Q) : bool := Qeq_bool a 0.

Definition neg (a : number) : number :=
  match a with
  | Fin x => Fin (- x)
  | Inf s => Inf (negb s)
  | NaN => NaN
  end.

Definition add (a b : number) : number :=
  match a, b with
  | Fin x, Fin y => Fin (x + y)
  | Fin _, Inf s => Inf s
  | Inf s, Fin _ => Inf s
  | Inf s, Inf t => if Bool.eqb s t then Inf s else NaN
  | _, _ => NaN
  end.

Definition sub (a b : number) : number :=
  match a, b with
  | Fin x, Fin y => Fin (x - y)
  | Fin _, Inf s => Inf (negb s)
  | Inf s, Fin _ => Inf s
  | Inf s, Inf t => if Bool.eqb s t then NaN else Inf s
  | _, _ => NaN
  end.

Definition mul (a b : number) : number :=
  match a, b with
  | Fin x, Fin y => Fin (x * y)
  | Fin x, Inf s => if Qzero x then NaN else Inf (Bool.eqb (Qltb 0 x) s)
  | Inf s, Fin y => if Qzero y then NaN else Inf (Bool.eqb s (Qltb 0 y))
  | Inf s, Inf t => Inf (Bool.eqb s t)
  | _, _ => NaN
  end.

(** Every zero divisor this code can produce is +0 (a count, a sum of
    absolute values, or an exact cancellation), so [x / 0] takes the sign
    of [x]. *)
Definition div (a b : number) : number :=
  match a, b with
  | Fin x, Fin y =>
      if Qzero y then (if Qzero x then NaN else Inf (Qltb 0 x))
      else Fin (x / y)
  | Fin _, Inf _ => Fin 0
  | Inf s, Fin y => Inf (Bool.eqb s (Qle_bool 0 y))
  | _, _ => NaN
  end.

(** [a < b], [a > b], [a <= b], [a >= b]: false as soon as one side is NaN. *)
Definition lt (a b : number) : bool :=
  match a, b with
  | Fin x, Fin y => Qltb x y
  | Fin _, Inf s => s
  | Inf s, Fin _ => negb s
  | Inf s, Inf t => negb s && t
  | _, _ => false
  end.

Definition le (a b : number) : bool :=
  match a, b with
  | Fin x, Fin y => Qle_bool x y
  | Fin _, Inf s => s
  | Inf s, Fin _ => negb s
  | Inf s, Inf t => negb s || t
  | _, _ => false
  end.

Definition gt (a b : number) : bool := lt b a.
Definition ge (a b : number) : bool := le b a.

(** [a === b] on numbers. *)
Definition strict_eq (a b : number) : bool :=
  match a, b with
  | Fin x, Fin y => Qeq_bool x y
  | Inf s, Inf t => Bool.eqb s t
  | _, _ => false
  end.

(** ToBoolean: 0 and NaN are falsy. *)
Definition truthy (a : number) : bool :=
  match a with
  | Fin x => negb (Qzero x)
  | Inf _ => true
  | NaN => false
  end.

(** [a || b] *)
Definition or_else (a b : number) : number := if truthy a then a else b.

Definition floor (a : number) : number :=
  match a with
  | Fin x => Fin (inject_Z (Qfloor x))
  | other => other
  end.

(** Math.min and Math.max of two arguments, and of a spread array. *)
Definition min2 (a b : number) : number :=
  match a, b with
  | NaN, _ | _, NaN => NaN
  | _, _ => if lt b a then b else a
  end.

Definition max2 (a b : number) : number :=
  match a, b with
  | NaN, _ | _, NaN => NaN
  | _, _ => if lt a b then b else a
  end.

Definition Math_min (l : list number) : number := foldr min2 (Inf true) l.
Definition Math_max (l : list number) : number := foldr max2 (Inf false) l.

Definition of_Z (z : Z) : number := Fin (inject_Z z).
Definition of_nat (n : nat) : number := of_Z (Z.of_nat n).

(** [l[i]] read as a number: a negative or out-of-range index gives
    [undefined], which is NaN in arithmetic and falsy in a test. *)
Definition idx (l : list number) (i : Z) : number :=
  if (i <? 0)%Z then NaN else default NaN (l !! Z.to_nat i).

(** Arrays whose cells are [null] or a number: [None] is a null cell (or a
    hole; both are nullish for [!= null] and [??]). *)
Abbreviation cells := (list (option number)).

(** [out[i] = v]: an index past the end extends the array with holes. *)
Definition array_set (out : cells) (i : nat) (v : number) : cells :=
  if decide (i < length out)%nat then <[i := Some v]> out
  else out ++ replicate (i - length out) None ++ [Some v].

(** The semantic equality of two numbers (rationals up to [==]). *)
Definition num_eq (a b : number) : Prop :=
  match a, b with
  | Fin x, Fin y => x == y
  | Inf s, Inf t => s = t
  | NaN, NaN => True
  | _, _ => False
  end.

Definition finite (a : number) : Prop :=
  match a with Fin _ => True | _ => False end.

Definition nonneg (a : number) : Prop :=
  match a with Fin q => 0 <= q | _ => False end.

Definition zero (a : number) : Prop :=
  match a with Fin q => q == 0 | _ => False end.

End JS.

Import JS.

Declare Scope js_scope.
Delimit Scope js_scope with js.
Bind Scope js_scope with number.
Infix "+" := add : js_scope.
Infix "-" := sub : js_scope.
Infix "*" := mul : js_scope.
Infix "/" := div : js_scope.

Definition cell (out : cells) (i : nat) : option number :=
  default None (out !! i).

(** ** The client-side indicator helpers *)

Module Indicators.

(** *** calcRSI *)

Definition rsi_value (avgGain avgLoss : number) : number :=
  if strict_eq avgLoss (Fin 0) then Fin 100
  else (Fin 100 - (Fin 100 / (Fin 1 + (avgGain / avgLoss))))%js.

Definition diff_at (values : list number) (i : nat) : number :=
  (idx values (Z.of_nat i) - idx values (Z.of_nat i - 1))%js.

(** The first loop, [for (let i = 1; i <= period; i++)], over its indices. *)
Fixpoint rsi_seed (values : list number) (ixs : list nat)
    (gain loss : number) : number * number :=
  match ixs with
  | [] => (gain, loss)
  | i :: rest =>
      let diff := diff_at values i in
      if gt diff (Fin 0) then rsi_seed values rest (gain + diff)%js loss
      else rsi_seed values rest gain (loss - diff)%js
  end.

(** [avgGain] and [avgLoss] when [out[period]] is written. *)
Definition rsi_init (values : list number) (period : nat) : number * number :=
  let '(gain, loss) := rsi_seed values (seq 1 period) (Fin 0) (Fin 0) in
  ((gain / of_nat period)%js, (loss / of_nat period)%js).

(** One turn of the second loop: the smoothed averages at index [i]. *)
Definition rsi_step (values : list number) (period : nat) (i : nat)
    (avgs : number * number) : number * number :=
  let diff := diff_at values i in
  let up := if gt diff (Fin 0) then diff else Fin 0 in
  let down := if lt diff (Fin 0) then neg diff else Fin 0 in
  (((fst avgs * (of_nat period - Fin 1) + up) / of_nat period)%js,
   ((snd avgs * (of_nat period - Fin 1) + down) / of_nat period)%js).

Fixpoint rsi_loop (values : list number) (period : nat) (ixs : list nat)
    (avgs : number * number) (out : cells) : cells :=
  match ixs with
  | [] => out
  | i :: rest =>
      let avgs' := rsi_step values period i avgs in
      rsi_loop values period rest avgs'
        (array_set out i (rsi_value (fst avgs') (snd avgs')))
  end.

Definition calcRSI (values : list number) (period : nat) : cells :=
  let out := replicate (length values) None in
  let avgs := rsi_init values period in
  let out := array_set out period (rsi_value (fst avgs) (snd avgs)) in
  rsi_loop values period
    (seq (period + 1) (length values - (period + 1))) avgs out.

(** The values of [avgGain] and [avgLoss] at the moment [out[period + n]]
    is assigned. *)
Fixpoint rsi_avgs (values : list number) (period : nat) (n : nat)
    : number * number :=
  match n with
  | O => rsi_init values period
  | S m => rsi_step values period (period + S m) (rsi_avgs values period m)
  end.

(** *** calcEMA *)

Fixpoint sum_first (values : list number) (jxs : list nat) (sum : number)
    : number :=
  match jxs with
  | [] => sum
  | j :: rest => sum_first values rest (sum + idx values (Z.of_nat j))%js
  end.

Definition ema_next (values : list number) (period : nat) (k : number)
    (i : nat) (ema : number) : number :=
  if (Z.of_nat i =? Z.of_nat period - 1)%Z
  then (sum_first values (seq 0 period) (Fin 0) / of_nat period)%js
  else (idx values (Z.of_nat i) * k + ema * (Fin 1 - k))%js.

Fixpoint ema_loop (values : list number) (period : nat) (k : number)
    (ixs : list nat) (ema : number) (out : cells) : cells :=
  match ixs with
  | [] => out
  | i :: rest =>
      if (Z.of_nat i <? Z.of_nat period - 1)%Z
      then ema_loop values period k rest ema out
      else
        let ema' := ema_next values period k i ema in
        ema_loop values period k rest ema' (array_set out i ema')
  end.

Definition calcEMA (values : list number) (period : nat) : cells :=
  let k := (Fin 2 / (of_nat period + Fin 1))%js in
  ema_loop values period k (seq 0 (length values)) (Fin 0)
    (replicate (length values) None).

(** *** calcMACDHist *)

(** [values.map((_, i) => (a[i] != null && b[i] != null) ? a[i] - b[i] : null)] *)
Definition diff_cells (n : nat) (a b : cells) : cells :=
  map (fun i =>
         match cell a i, cell b i with
         | Some x, Some y => Some (x - y)%js
         | _, _ => None
         end) (seq 0 n).

Definition macdLine (values : list number) (fast slow : nat) : cells :=
  diff_cells (length values) (calcEMA values fast) (calcEMA values slow).

(** [macd.map(v => v == null ? 0 : v)] *)
Definition macdForSignal (macd : cells) : list number :=
  map (fun v => match v with Some x => x | None => Fin 0 end) macd.

Definition signalLine (values : list number) (fast slow signal : nat)
    : cells :=
  calcEMA (macdForSignal (macdLine values fast slow)) signal.

Definition calcMACDHist (values : list number) (fast slow signal : nat)
    : cells :=
  let macd := macdLine values fast slow in
  let signalArr := calcEMA (macdForSignal macd) signal in
  diff_cells (length macd) macd signalArr.

(** *** calcVolumeProfile *)

(** [Math.min(bins - 1, Math.max(0, Math.floor((c - min) / step)))] *)
Definition bucket_index (bins : nat) (mn step c : number) : number :=
  min2 (of_nat bins - Fin 1)%js (max2 (Fin 0) (floor ((c - mn) / step)%js)).

(** A number used as an array subscript addresses a cell only when it is a
    non-negative integer. *)
Definition as_index (n : number) : option nat :=
  match n with
  | Fin q =>
      if Qeq_bool q (inject_Z (Qfloor q)) && Qle_bool 0 q
      then Some (Z.to_nat (Qfloor q)) else None
  | _ => None
  end.

(** [buckets[ix] += v].  A subscript that is no array index (NaN, -1)
    touches a named property and leaves the cells alone; Math.min keeps an
    integer subscript below [bins], so no write lands past the end. *)
Definition bucket_add (buckets : list number) (ix v : number) : list number :=
  match as_index ix with
  | Some k => <[k := (default NaN (buckets !! k) + v)%js]> buckets
  | None => buckets
  end.

Fixpoint fill_buckets (bins : nat) (mn step : number)
    (closes volumes : list number) (ixs : list nat) (buckets : list number)
    : list number :=
  match ixs with
  | [] => buckets
  | i :: rest =>
      let ix := bucket_index bins mn step (idx closes (Z.of_nat i)) in
      fill_buckets bins mn step closes volumes rest
        (bucket_add buckets ix (or_else (idx volumes (Z.of_nat i)) (Fin 0)))
  end.

(** [for (let i = 1; i < bins; i++) if (buckets[i] > buckets[pocIdx]) pocIdx = i] *)
Fixpoint poc_scan (buckets : list number) (ixs : list nat) (pocIdx : nat)
    : nat :=
  match ixs with
  | [] => pocIdx
  | i :: rest =>
      if gt (default NaN (buckets !! i)) (default NaN (buckets !! pocIdx))
      then poc_scan buckets rest i
      else poc_scan buckets rest pocIdx
  end.

Definition vp_step (closes : list number) (bins : nat) : number :=
  or_else ((Math_max closes - Math_min closes) / of_nat bins)%js (Fin 1).

Definition vp_buckets (closes volumes : list number) (bins : nat)
    : list number :=
  fill_buckets bins (Math_min closes) (vp_step closes bins) closes volumes
    (seq 0 (length closes)) (replicate bins (Fin 0)).

Definition vp_pocIdx (closes volumes : list number) (bins : nat) : nat :=
  poc_scan (vp_buckets closes volumes bins) (seq 1 (bins - 1)) 0.

(** The [pocPrice] field of the result; [None] is [null]. *)
Definition calcVolumeProfile (closes volumes : list number) (bins : nat)
    : option number :=
  match closes with
  | [] => None
  | _ =>
      Some (Math_min closes
            + of_nat (vp_pocIdx closes volumes bins) * vp_step closes bins)%js
  end.

(** The volumes the fill loop adds to bucket [j], in the order it adds
    them. *)
Definition credited (bins : nat) (mn step : number)
    (closes volumes : list number) (j : nat) (ixs : list nat) : list number :=
  map (fun i => or_else (idx volumes (Z.of_nat i)) (Fin 0))
      (filter (fun i => as_index (bucket_index bins mn step
                                    (idx closes (Z.of_nat i))) = Some j) ixs).

(** The bucket of a finite close, as an integer. *)
Definition bucket_no (bins : nat) (mn st c : Q) : nat :=
  Z.to_nat (Z.min (Z.of_nat bins - 1) (Qfloor ((c - mn) / st))).

Definition bucket_volume (buckets : list number) (j : nat) : Q :=
  match buckets !! j with Some (Fin q) => q | _ => 0 end.

(** The POC price as the specification words it: the price in the middle
    of the bucket of largest accumulated volume. *)
Definition poc_midpoint (closes volumes : list number) (bins : nat)
    : option number :=
  match closes with
  | [] => None
  | _ =>
      Some (Math_min closes
            + (of_nat (vp_pocIdx closes volumes bins) + Fin 0.5)
              * vp_step closes bins)%js
  end.

End Indicators.

(** ** The Node analysis service *)

Module Server.

Inductive signal_t : Type := STRONG_BUY | BUY | NEUTRAL | SELL | STRONG_SELL.

(** One element of the array returned by the MACD calculator of the
    [technicalindicators] package; a field may be [undefined]. *)
Record macd_entry : Type := MacdEntry {
  MACD : option number;
  MACD_signal : option number;
  MACD_histogram : option number
}.

(** The [macd] object of the result of [computeIndicators]. *)
Record macd_t : Type := Macd {
  macd_line : number;      (* macd *)
  macd_signal : number;    (* signal *)
  macd_hist : number       (* histogram *)
}.

(** The object returned by [computeIndicators]. *)
Record indicators : Type := MkIndicators {
  rsi : number;
  macd : macd_t;
  ma : number;
  maSignal : number;
  volume : number;
  volumeMa : number;
  volumeRatio : number;
  priceChange : number;
  currentPrice : number;
  totalScore : number;
  signal : signal_t
}.

Definition mean (arr : list number) : number :=
  if decide (length arr = 0%nat) then Fin 0
  else (fold_left add arr (Fin 0) / of_nat (length arr))%js.

(** [arr.slice(-n)] *)
Definition slice_last {A} (n : nat) (arr : list A) : list A :=
  drop (length arr - n) arr.

(** [x || 0] for a field that may be [undefined]. *)
Definition or_zero (x : option number) : number :=
  or_else (default NaN x) (Fin 0).

(** Lines 133-137: the signal of a total score. *)
Definition classify (totalScore : number) : signal_t :=
  if gt totalScore (Fin 20) then STRONG_BUY
  else if gt totalScore (Fin 10) then BUY
  else if le totalScore (Fin (-20)) then STRONG_SELL
  else if lt totalScore (Fin (-10)) then SELL
  else NEUTRAL.

Section ComputeIndicators.

(** [RSI.calculate] and [MACD.calculate] of the [technicalindicators]
    package, with the options the service passes (period 14; 12, 26, 9). *)
Variable RSI_calculate : list number -> list number.
Variable MACD_calculate : list number -> list macd_entry.

Definition computeIndicators (closes volumes : list number) : indicators :=
  let rsiArr := RSI_calculate closes in
  let rsi := match last rsiArr with Some r => r | None => Fin 50 end in
  let macdArr := MACD_calculate closes in
  let lastMacd :=
    match last macdArr with
    | Some m => m
    | None => MacdEntry (Some (Fin 0)) (Some (Fin 0)) (Some (Fin 0))
    end in
  let ma := if decide (20 <= length closes)%nat
            then mean (slice_last 20 closes) else mean closes in
  let volMa := if decide (20 <= length volumes)%nat
               then mean (slice_last 20 volumes) else mean volumes in
  let currentVol := match last volumes with Some v => v | None => Fin 0 end in
  let volumeRatio :=
    if strict_eq volMa (Fin 0) then Fin 1 else (currentVol / volMa)%js in
  let oldPrice := if decide (2 <= length closes)%nat
                  then idx closes (Z.of_nat (length closes) - 2)
                  else idx closes (Z.of_nat (length closes) - 1) in
  let newPrice := if decide (length closes = 0%nat) then Fin 0
                  else idx closes (Z.of_nat (length closes) - 1) in
  let priceChange :=
    if truthy oldPrice
    then (((newPrice - oldPrice) / oldPrice) * Fin 100)%js else Fin 0 in
  let maSignal :=
    if gt newPrice (ma * Fin 1.02)%js then Fin 1
    else if lt newPrice (ma * Fin 0.98)%js then Fin (-1)
    else Fin 0 in
  let rsiScore :=
    if lt rsi (Fin 30) then (((Fin 30 - rsi) / Fin 30) * Fin 50)%js
    else if gt rsi (Fin 70) then (neg ((rsi - Fin 70) / Fin 30) * Fin 50)%js
    else Fin 0 in
  let macdScore := (or_zero (MACD_histogram lastMacd) * Fin 10)%js in
  let priceScore := (priceChange * Fin 2)%js in
  let volumeScore :=
    if gt volumeRatio (Fin 1.5) then Fin 30
    else if gt volumeRatio (Fin 1.0) then Fin 15
    else if gt volumeRatio (Fin 0.5) then Fin 0
    else Fin (-15) in
  let maScore := (maSignal * Fin 20)%js in
  let totalScore :=
    (rsiScore * Fin 0.25 + macdScore * Fin 0.25 + priceScore * Fin 0.25
     + volumeScore * Fin 0.15 + maScore * Fin 0.1)%js in
  {| rsi := rsi;
     macd := Macd (or_zero (MACD lastMacd)) (or_zero (MACD_signal lastMacd))
                  (or_zero (MACD_histogram lastMacd));
     ma := ma;
     maSignal := maSignal;
     volume := currentVol;
     volumeMa := volMa;
     volumeRatio := volumeRatio;
     priceChange := priceChange;
     currentPrice := newPrice;
     totalScore := totalScore;
     signal := classify totalScore |}.

End ComputeIndicators.

(** The scorer as the specification words it, on the fields of a snapshot. *)
Module Spec.

Definition rsiScore (rsi : number) : number :=
  if lt rsi (Fin 30) then (((Fin 30 - rsi) / Fin 30) * Fin 50)%js
  else if gt rsi (Fin 70) then (neg ((rsi - Fin 70) / Fin 30) * Fin 50)%js
  else Fin 0.

Definition macdScore (histogram : number) : number := (histogram * Fin 10)%js.

Definition priceScore (priceChangePercent : number) : number :=
  (priceChangePercent * Fin 2)%js.

Definition volumeScore (volumeRatio : number) : number :=
  if gt volumeRatio (Fin 1.5) then Fin 30
  else if gt volumeRatio (Fin 1.0) then Fin 15
  else if gt volumeRatio (Fin 0.5) then Fin 0
  else Fin (-15).

Definition maSignalOf (price MA : number) : number :=
  if gt price (MA * Fin 1.02)%js then Fin 1
  else if lt price (MA * Fin 0.98)%js then Fin (-1)
  else Fin 0.

Definition maScore (sig : number) : number := (sig * Fin 20)%js.

Definition totalScore (s : indicators) : number :=
  (rsiScore (rsi s) * Fin 0.25
   + macdScore (macd_hist (macd s)) * Fin 0.25
   + priceScore (priceChange s) * Fin 0.25
   + volumeScore (volumeRatio s) * Fin 0.15
   + maScore (maSignal s) * Fin 0.10)%js.

End Spec.

(** *** The /api/futures/analyze handler *)

(** The names every object literal inherits from [Object.prototype]. *)
Definition object_prototype_keys : list string :=
  ["constructor"; "__defineGetter__"; "__defineSetter__"; "hasOwnProperty";
   "__lookupGetter__"; "__lookupSetter__"; "isPrototypeOf";
   "propertyIsEnumerable"; "toString"; "valueOf"; "__proto__";
   "toLocaleString"]%string.

(** What [mapInterval] returns: a string, or the member of
    [Object.prototype] (a function, or the prototype itself) that the table
    inherits under the key it was asked for. *)
Inductive interval : Type :=
| IvText (s : string)
| IvInherited (key : string).

(** [m[String(iv)] || String(iv)].  The table is an object literal, so a
    key it does not own is still found when [Object.prototype] has it, and
    the member found there is truthy. *)
Definition mapInterval (iv : string) : interval :=
  match iv with
  | "1" => IvText "1m" | "3" => IvText "3m" | "5" => IvText "5m"
  | "15" => IvText "15m" | "30" => IvText "30m"
  | "60" => IvText "1h" | "240" => IvText "4h" | "D" => IvText "1d"
  | "1m" => IvText "1m" | "15m" => IvText "15m" | "1h" => IvText "1h"
  | "4h" => IvText "4h" | "1d" => IvText "1d"
  | other =>
      if bool_decide (other ∈ object_prototype_keys) then IvInherited other
      else IvText other
  end%string.

(** A candle row, read the way the handler reads it: [Number(k[4])] and
    [Number(k[5])]. *)
Record kline : Type := Kline { k_close : number; k_volume : number }.

(** What [axios.get] settles to: a rejection (network error, timeout,
    non-2xx status) or a body, which is an array of rows or something else.
    A row of the array is [None] when it is [null], the one JSON value whose
    subscript [k[4]] throws. *)
Inductive payload : Type := NotArray | Rows (rows : list (option kline)).
Inductive http : Type := Rejected | Resolved (data : payload).

(** A settled request that makes no unit of work fail: it is not rejected
    and its rows hold no null. *)
Definition no_failure (h : http) : Prop :=
  match h with
  | Rejected => False
  | Resolved NotArray => True
  | Resolved (Rows rows) => None ∉ rows
  end.

Inductive outcome (A : Type) : Type := Throws | Returns (a : A).
Arguments Throws {A}.
Arguments Returns {A} a.

Record score_t : Type := Score { total_score : number }.

(** The [analysis] object of one (symbol, timeframe); its [timestamp], read
    from the clock, is left out. *)
Record analysis : Type := Analysis {
  a_symbol : string;
  a_timeframe : string;
  current_price : number;
  price_change : number;
  a_rsi : number;
  a_macd : macd_t;
  a_ma : number;
  ma_signal : number;
  a_volume : number;
  volume_ma : number;
  volume_ratio : number;
  score : score_t;
  a_signal : signal_t
}.

Record ticker : Type := Ticker { symbol : string; volume_24h : number }.

(** An element of [analyzed]. *)
Record entry : Type := Entry {
  e_symbol : string;
  e_volume_24h : number;
  timeframes : gmap string analysis;
  avg_score : number
}.

Record response : Type := Response { symbols : list entry; total : nat }.

(** [Array.prototype.sort] with a comparator: stable, an element moves
    behind its right neighbour only when the comparator is positive.  For a
    consistent comparator the stable order is unique, so insertion computes
    what any engine computes. *)
Fixpoint sort_insert {A} (cmp : A -> A -> number) (x : A) (l : list A)
    : list A :=
  match l with
  | [] => [x]
  | y :: rest =>
      if gt (cmp x y) (Fin 0) then y :: sort_insert cmp x rest
      else x :: y :: rest
  end.

Definition js_sort {A} (cmp : A -> A -> number) (l : list A) : list A :=
  foldr (sort_insert cmp) [] l.

(** [arr.slice(0, e)]: [e] is truncated towards zero, NaN counts as 0 and
    a negative end counts from the back. *)
Definition slice_to {A} (arr : list A) (e : number) : list A :=
  match e with
  | NaN => []
  | Inf pos => if pos then arr else []
  | Fin q =>
      let k := if Qle_bool 0 q then Qfloor q else Qceiling q in
      if (k <? 0)%Z then take (length arr - Z.to_nat (- k)) arr
      else take (Z.to_nat k) arr
  end.

(** Lines 255-261.  [minScore] is [Number(req.query.min_score)] when the
    parameter is present; the filter runs whatever [isNaN] says. *)
Definition filterByScore (minScore : option number) (analyzed : list entry)
    : list entry :=
  match minScore with
  | None => analyzed
  | Some ms => filter (fun x => ge (avg_score x) ms = true) analyzed
  end.

(** The filter as the specification words it: drop the symbols with
    [avgScore < minScore], if [minScore] is specified. *)
Definition dropBelow (minScore : option number) (analyzed : list entry)
    : list entry :=
  match minScore with
  | None => analyzed
  | Some ms => filter (fun x => lt (avg_score x) ms = false) analyzed
  end.

Definition byScoreDesc (a b : entry) : number :=
  (avg_score b - avg_score a)%js.

Definition respond (minScore : option number) (limit : number)
    (analyzed : list entry) : response :=
  let analyzed := js_sort byScoreDesc (filterByScore minScore analyzed) in
  {| symbols := slice_to analyzed limit; total := length analyzed |}.

(** [Object.values(tfResults).reduce((acc, a) => acc + a.score.total_score, 0)].
    JavaScript visits the values in property order, [map_fold] in the order
    of the map: the sum is the sum of the values taken in one of their
    orders. *)
Definition sum_scores (tfResults : gmap string analysis) : number :=
  map_fold (fun _ a acc => (acc + total_score (score a))%js) (Fin 0) tfResults.

Definition average (tfResults : gmap string analysis) : number :=
  (sum_scores tfResults / of_nat (size tfResults))%js.

(** The total scores held in [tfResults]. *)
Definition scores (tfResults : gmap string analysis) : list number :=
  map (fun p => total_score (score p.2)) (map_to_list tfResults).

(** [b] may stand behind [a] in a list ranked by falling average score. *)
Definition score_desc (a b : entry) : Prop :=
  le (avg_score b) (avg_score a) = true.

Definition klines_url : string := "https://api.bitunix.com/fapi/v1/klines".

Section Analyze.

(** The world outside the handler: the exchange answering [axios.get] and
    the database written by [storeAnalysis]. *)
Context {World : Type}.
Variable RSI_calculate : list number -> list number.
Variable MACD_calculate : list number -> list macd_entry.
Variable axios_get :
  string -> string * interval * nat -> World -> http * World.
Variable storeAnalysis : analysis -> World -> World.

(** Computations that read and change the world and may throw. *)
Definition M (A : Type) : Type := World -> outcome A * World.

Definition ret {A} (a : A) : M A := fun w => (Returns a, w).

Definition bind {A B} (c : M A) (k : A -> M B) : M B :=
  fun w =>
    match c w with
    | (Throws, w') => (Throws, w')
    | (Returns a, w') => k a w'
    end.

Notation "x <- c ;; k" := (bind c (fun x => k))
  (at level 100, c at next level, right associativity).

Definition fetchKlines (sym interval : string) (limit : nat)
    : M (list (option kline)) :=
  fun w =>
    match axios_get klines_url (sym, mapInterval interval, limit) w with
    | (Rejected, w') => (Throws, w')
    | (Resolved NotArray, w') => (Returns [], w')
    | (Resolved (Rows rows), w') => (Returns rows, w')
    end.

(** The rows as candles, when none of them is null. *)
Fixpoint rows_of (kl : list (option kline)) : option (list kline) :=
  match kl with
  | [] => Some []
  | Some k :: rest =>
      match rows_of rest with
      | Some ks => Some (k :: ks)
      | None => None
      end
  | None :: _ => None
  end.

(** [kl.map(k => Number(k[4]))] and [kl.map(k => Number(k[5]))]: the
    TypeError of a null row is thrown before anything is computed or
    stored. *)
Definition candles (kl : list (option kline)) : M (list kline) :=
  fun w =>
    match rows_of kl with
    | Some ks => (Returns ks, w)
    | None => (Throws, w)
    end.

Definition store (a : analysis) : M unit :=
  fun w => (Returns tt, storeAnalysis a w).

(** Lines 227-246: the analysis of one non-empty candle list. *)
Definition analyse (s : ticker) (tf : string) (kl : list kline) : analysis :=
  let closes := map k_close kl in
  let volumes := map k_volume kl in
  let ind := computeIndicators RSI_calculate MACD_calculate closes volumes in
  {| a_symbol := symbol s;
     a_timeframe := tf;
     current_price := currentPrice ind;
     price_change := priceChange ind;
     a_rsi := rsi ind;
     a_macd := macd ind;
     a_ma := ma ind;
     ma_signal := maSignal ind;
     a_volume := volume ind;
     volume_ma := volumeMa ind;
     volume_ratio := volumeRatio ind;
     score := Score (totalScore ind);
     a_signal := signal ind |}.

(** [tfResults[tf] = analysis] on the object literal [tfResults].  The key
    [__proto__] is the accessor of [Object.prototype]: assigning an object
    to it replaces the prototype of [tfResults] and creates no own
    property, so [Object.keys], [Object.values] and the JSON of the
    response do not see it.  Every other key becomes an own property. *)
Definition obj_set (tf : string) (a : analysis)
    (tfResults : gmap string analysis) : gmap string analysis :=
  if String.eqb tf "__proto__" then tfResults else <[tf := a]> tfResults.

(** [for (const tf of timeframes)], lines 224-249. *)
Fixpoint analyzeTimeframes (s : ticker) (tfs : list string)
    (tfResults : gmap string analysis) : M (gmap string analysis) :=
  match tfs with
  | [] => ret tfResults
  | tf :: rest =>
      kl <- fetchKlines (symbol s) tf 500 ;;
      match kl with
      | [] => analyzeTimeframes s rest tfResults
      | _ =>
          ks <- candles kl ;;
          let a := analyse s tf ks in
          _ <- store a ;;
          analyzeTimeframes s rest (obj_set tf a tfResults)
      end
  end.

(** [for (const s of symbols.slice(0, 100))], lines 222-254. *)
Fixpoint analyzeSymbols (tfs : list string) (candidates : list ticker)
    (analyzed : list entry) : M (list entry) :=
  match candidates with
  | [] => ret analyzed
  | s :: rest =>
      tfResults <- analyzeTimeframes s tfs ∅ ;;
      if decide (size tfResults = 0%nat)
      then analyzeSymbols tfs rest analyzed
      else analyzeSymbols tfs rest
             (analyzed ++ [Entry (symbol s) (volume_24h s) tfResults
                                 (average tfResults)])
  end.

(** The candidates the symbol loop visits. *)
Definition top100 (candidates : list ticker) : list ticker :=
  take 100 (js_sort (fun a b => (volume_24h b - volume_24h a)%js) candidates).

(** The handler from line 220 on, given the candidate rows. *)
Definition analyze (tfs : list string) (limit : number)
    (minScore : option number) (candidates : list ticker) : M response :=
  let sorted :=
    js_sort (fun a b => (volume_24h b - volume_24h a)%js) candidates in
  analyzed <- analyzeSymbols tfs (take 100 sorted) [] ;;
  ret (respond minScore limit analyzed).

(** What the client of the route receives. *)
Inductive reply : Type :=
| Json (r : response)   (* res.json(...) *)
| Status500             (* res.status(500) *)
| NoReply.              (* nothing is sent *)

(** The route from the callback of [db.all] on.  [candidates] is [None]
    when the query reports an error, and otherwise the list the callback
    settles on.  The callback is an async function that runs after the
    handler has returned, outside its [try]: an exception in it rejects the
    promise of the callback, which nobody awaits, and no response is
    sent. *)
Definition analyzeRoute (tfs : list string) (limit : number)
    (minScore : option number) (candidates : option (list ticker))
    : World -> reply * World :=
  fun w =>
    match candidates with
    | None => (Status500, w)
    | Some cs =>
        match analyze tfs limit minScore cs w with
        | (Returns r, w') => (Json r, w')
        | (Throws, w') => (NoReply, w')
        end
    end.

(** The units of work the timeframe loop completes for one symbol, in
    order, each with the candles its fetch returned (none for a skipped
    unit); the list stops at a unit that throws. *)
Fixpoint fetches (s : ticker) (tfs : list string) (w : World)
    : list (string * list kline) :=
  match tfs with
  | [] => []
  | tf :: rest =>
      match fetchKlines (symbol s) tf 500 w with
      | (Throws, _) => []
      | (Returns kl, w') =>
          match rows_of kl with
          | None => []
          | Some ks =>
              (tf, ks) ::
              fetches s rest
                (match ks with
                 | [] => w'
                 | _ => storeAnalysis (analyse s tf ks) w'
                 end)
          end
      end
  end.

(** What one completed unit does to [tfResults]. *)
Definition record (s : ticker) (tfResults : gmap string analysis)
    (f : string * list kline) : gmap string analysis :=
  match f.2 with
  | [] => tfResults
  | _ => obj_set f.1 (analyse s f.1 f.2) tfResults
  end.

(** The timeframe loop of [s] has a unit with candles whose key becomes a
    property of [tfResults]. *)
Definition usable (s : ticker) (tfs : list string) (w : World) : Prop :=
  exists tf ks,
    (tf, ks) ∈ fetches s tfs w /\ ks <> [] /\ tf <> "__proto__"%string.

(** An element the symbol loop pushes for one of the candidates. *)
Definition pushed (tfs : list string) (candidates : list ticker) (e : entry)
    : Prop :=
  timeframes e <> ∅
  /\ avg_score e = average (timeframes e)
  /\ exists s w0,
       s ∈ candidates
       /\ e_symbol e = symbol s /\ e_volume_24h e = volume_24h s
       /\ map fst (fetches s tfs w0) = tfs
       /\ timeframes e = foldl (record s) ∅ (fetches s tfs w0).

End Analyze.

(** Sample data. *)
Definition demo_closes : list number :=
  map of_Z [100; 102; 101; 105; 107; 106; 108; 110; 109; 111; 115; 114; 116;
            118; 117; 119; 121; 120; 122; 125; 124; 126; 128; 127; 129; 131;
            130; 132]%Z.

Definition demo_entries : list entry :=
  [Entry "A" (Fin 1) ∅ (Fin 7); Entry "B" (Fin 2) ∅ (Fin 3);
   Entry "C" (Fin 3) ∅ (Fin 12)].

(** A small exchange for running the handler: every fetch for the symbol
    BAD is rejected, every fetch for NUL answers with one null row, the
    daily interval answers with a body that is no array, anything else with
    one candle. *)
Definition demo_get (url : string) (args : string * interval * nat) (w : unit)
    : http * unit :=
  if String.eqb args.1.1 "BAD" then (Rejected, w)
  else if String.eqb args.1.1 "NUL" then (Resolved (Rows [None]), w)
  else match args.1.2 with
       | IvText "1d" => (Resolved NotArray, w)
       | _ => (Resolved (Rows [Some (Kline (Fin 100) (Fin 7))]), w)
       end.

(** An exchange that never rejects and never has candles. *)
Definition quiet_get (url : string) (args : string * interval * nat) (w : unit)
    : http * unit :=
  (Resolved NotArray, w).

(** An exchange that answers with two candles when the interval is a
    member of [Object.prototype] and with one candle otherwise, and a
    database that keeps what [storeAnalysis] is given, in order. *)
Definition proto_get (url : string) (args : string * interval * nat)
    (w : list analysis) : http * list analysis :=
  match args.1.2 with
  | IvInherited _ =>
      (Resolved (Rows [Some (Kline (Fin 100) (Fin 7));
                       Some (Kline (Fin 150) (Fin 7))]), w)
  | IvText _ => (Resolved (Rows [Some (Kline (Fin 100) (Fin 7))]), w)
  end.

Definition log_analysis (a : analysis) (w : list analysis) : list analysis :=
  w ++ [a].

Definition demo_analyze (tfs : list string)
    : list ticker -> unit -> outcome response * unit :=
  analyze (fun _ => []) (fun _ => []) demo_get (fun _ w => w)
    tfs (Fin 50) None.

End Server.

Import Indicators Server.

(** ** Further helpers of the dashboard and of the service *)

(** *** calcSMA *)

Fixpoint sma_loop (values : list number) (period : nat) (ixs : list nat)
    (sum : number) (out : cells) : cells :=
  match ixs with
  | [] => out
  | i :: rest =>
      let sum1 := (sum + idx values (Z.of_nat i))%js in
      let sum2 := if decide (period <= i)%nat
                  then (sum1 - idx values (Z.of_nat i - Z.of_nat period))%js
                  else sum1 in
      sma_loop values period rest sum2
        (if (Z.of_nat period - 1 <=? Z.of_nat i)%Z
         then array_set out i (sum2 / of_nat period)%js else out)
  end.

Definition calcSMA (values : list number) (period : nat) : cells :=
  sma_loop values period (seq 0 (length values)) (Fin 0)
    (replicate (length values) None).

(** The rational carried by a finite number. *)
Definition qval (a : number) : Q :=
  match a with Fin q => q | _ => 0 end.

Definition Qsum (l : list Q) : Q := foldr Qplus 0 l.

(** A finite number between two rationals. *)
Definition within (lo hi : Q) (a : number) : Prop :=
  match a with Fin q => lo <= q <= hi | _ => False end.

(** The value of [ema] in [calcEMA] when the cell [period - 1 + n] is
    written. *)
Fixpoint ema_from (values : list number) (period : nat) (k : number)
    (n : nat) : number :=
  match n with
  | O => ema_next values period k (period - 1) (Fin 0)
  | S m =>
      ema_next values period k (period - 1 + S m) (ema_from values period k m)
  end.

(** The smoothing factor [2 / (period + 1)]. *)
Definition ema_k (period : nat) : number :=
  (Fin 2 / (of_nat period + Fin 1))%js.

(** EMA as the specification words it: undefined before the seed index;
    the seed, at index [period - 1], is the SMA of the first [period]
    values; afterwards [ema[i] = value[i] * k + ema[i-1] * (1 - k)] with
    [k = 2 / (period + 1)]. *)
Definition is_EMA (values : list number) (period : nat) (out : cells)
    : Prop :=
  let k := (Fin 2 / (of_nat period + Fin 1))%js in
  (forall i, is_Some (cell out i)
             <-> (period <= i + 1)%nat /\ (i < length values)%nat)
  /\ ((period <= length values)%nat ->
      cell out (period - 1)
      = Some (fold_left add (take period values) (Fin 0)
              / of_nat period)%js)
  /\ (forall i e,
        (period <= i + 1)%nat -> (i + 1 < length values)%nat ->
        cell out i = Some e ->
        cell out (i + 1)
        = Some (idx values (Z.of_nat (i + 1)) * k + e * (Fin 1 - k))%js).

(** The sum of the first [n] values. *)
Definition prefix_sum (values : list number) (n : nat) : Q :=
  Qsum (map qval (take n values)).

(** Every step of the series, from index 1 on, is a finite difference that
    satisfies [P]. *)
Definition steps (P : Q -> Prop) (values : list number) : Prop :=
  forall i, (1 <= i < length values)%nat ->
            exists d, diff_at values i = Fin d /\ P d.

(** A finite number above zero. *)
Definition positive (a : number) : Prop :=
  match a with Fin q => 0 < q | _ => False end.

(** *** The technical rating badge of applyOverlays (part_000, 710-734) *)

Inductive rating : Type := Buy | Sell | Neutral.

(** [out[i] ?? d] for a cell array; a negative index reads [undefined]. *)
Definition cell_or (out : cells) (i : Z) (d : number) : number :=
  if (i <? 0)%Z then d else default d (cell out (Z.to_nat i)).

Definition techRating (lastCloses : list number) : rating :=
  let sma := calcSMA lastCloses 20 in
  let rsiArr := calcRSI lastCloses 14 in
  let macdHist := calcMACDHist lastCloses 12 26 9 in
  let last := (Z.of_nat (length lastCloses) - 1)%Z in
  let rsi := cell_or rsiArr last (Fin 50) in
  let hist := cell_or macdHist last (Fin 0) in
  let price := idx lastCloses last in
  let ma := cell_or sma last price in
  let bullish := lt rsi (Fin 35) || (gt hist (Fin 0) && gt price ma) in
  let bearish := gt rsi (Fin 65) || (lt hist (Fin 0) && lt price ma) in
  if bullish && negb bearish then Buy
  else if bearish && negb bullish then Sell
  else Neutral.

(** *** The UT alert markers of applyOverlays (part_000, 639-655) *)

(** [hist !== null && prevHist !== null && ((hist > 0 && prevHist <= 0) ||
    (hist < 0 && prevHist >= 0))] *)
Definition macdCross (hist prevHist : option number) : bool :=
  match hist, prevHist with
  | Some h, Some ph =>
      (gt h (Fin 0) && le ph (Fin 0)) || (lt h (Fin 0) && ge ph (Fin 0))
  | _, _ => false
  end.

(** [ma !== null && prevMa !== null && ((c > ma && p <= prevMa) ||
    (c < ma && p >= prevMa))] *)
Definition maCross (c p : number) (ma prevMa : option number) : bool :=
  match ma, prevMa with
  | Some m, Some pm => (gt c m && le p pm) || (lt c m && ge p pm)
  | _, _ => false
  end.

(** The test of the loop body at index [i >= 1]. *)
Definition ut_alert (lastCloses : list number) (i : nat) : bool :=
  let sma := calcSMA lastCloses 20 in
  let rsiArr := calcRSI lastCloses 14 in
  let macdHist := calcMACDHist lastCloses 12 26 9 in
  let c := idx lastCloses (Z.of_nat i) in
  let p := idx lastCloses (Z.of_nat i - 1) in
  let rsi := default (Fin 50) (cell rsiArr i) in
  macdCross (cell macdHist i) (cell macdHist (i - 1))
  && maCross c p (cell sma i) (cell sma (i - 1))
  && gt rsi (Fin 45) && lt rsi (Fin 55).

(** The [points] of the UT Alerts dataset, as pairs [(x, y)]. *)
Definition utAlerts (lastCloses : list number) : list (nat * number) :=
  map (fun i => (i, idx lastCloses (Z.of_nat i)))
      (filter (fun i => ut_alert lastCloses i = true)
              (seq 1 (length lastCloses - 1))).

(** Fifteen closes that never fall. *)
Definition rising_closes : list number :=
  map of_Z [1; 2; 2; 3; 5; 5; 6; 8; 9; 9; 10; 12; 13; 15; 16]%Z.

(** A series with one marker, at its last index. *)
Definition ut_closes : list number :=
  map of_Z [2; 5; 2; 8; 8; 8; 7; 4; 2; 8; 1; 7; 7; 1; 8; 5; 4; 2; 6; 1; 1; 1;
            9; 1; 7; 4; 7; 1; 9]%Z.

(** *** The service: orders and tables *)

(** The signals from the most bearish to the most bullish. *)
Definition signal_rank (s : signal_t) : nat :=
  match s with
  | STRONG_SELL => 0 | SELL => 1 | NEUTRAL => 2 | BUY => 3 | STRONG_BUY => 4
  end.

(** The order the analyze handler gives the candidate rows: falling
    [volume_24h]. *)
Definition volume_desc (a b : ticker) : Prop :=
  le (volume_24h b) (volume_24h a) = true.

(** The candidates whose volume is strictly above that of [s]. *)
Definition above (s : ticker) (candidates : list ticker) : list ticker :=
  filter (fun t => lt (volume_24h s) (volume_24h t) = true) candidates.

(** A field of a library result that is a finite number when present. *)
Definition finite_field (x : option number) : Prop :=
  match x with Some v => finite v | None => True end.

(** *** The ticker table (part_004, 49-85) *)

(** [s.endsWith(suffix)] *)
Definition ends_with (s suffix : string) : bool :=
  let n := String.length s in
  let m := String.length suffix in
  (m <=? n)%nat && String.eqb (String.substring (n - m) m s) suffix.

(** An element of the ticker feed, an object.  [raw_symbol] is
    [String(t.symbol || '')];
    a numeric field is [None] when it is null or absent and otherwise holds
    its [Number(...)]. *)
Record raw_ticker : Type := RawTicker {
  raw_symbol : string;
  raw_lastPrice : option number;
  raw_price : option number;
  raw_priceChangePercent : option number;
  raw_priceChange : option number;
  raw_quoteVolume : option number;
  raw_volume : option number
}.

(** [Number(a ?? b ?? 0)] *)
Definition first_of (a b : option number) : number :=
  match a, b with
  | Some x, _ => x
  | None, Some y => y
  | None, None => Fin 0
  end.

(** A row of [futures_tickers], found by its unique [symbol]. *)
Record ticker_row : Type := TickerRow {
  row_price : number;
  row_change : number;
  row_volume : number;
  row_updated : string
}.

Definition row_of (now : string) (t : raw_ticker) : ticker_row :=
  {| row_price := first_of (raw_lastPrice t) (raw_price t);
     row_change := first_of (raw_priceChangePercent t) (raw_priceChange t);
     row_volume := first_of (raw_quoteVolume t) (raw_volume t);
     row_updated := now |}.

(** One turn of the loop of [upsertTickers]: INSERT ... ON CONFLICT(symbol)
    DO UPDATE. *)
Definition upsert_one (now : string) (tbl : gmap string ticker_row)
    (t : raw_ticker) : gmap string ticker_row :=
  if ends_with (raw_symbol t) "USDT"
  then <[raw_symbol t := row_of now t]> tbl
  else tbl.

Definition upsertTickers (now : string) (items : list raw_ticker)
    (tbl : gmap string ticker_row) : gmap string ticker_row :=
  foldl (upsert_one now) tbl items.

(** The loop of [upsertTickers] over a feed that may hold [null]: on such
    an element [t.symbol] throws, after the rows of the elements before it
    have been written.  An element that is no object has no [symbol] and
    counts as an object without fields. *)
Fixpoint upsertFeed (now : string) (items : list (option raw_ticker))
    (tbl : gmap string ticker_row) : outcome unit * gmap string ticker_row :=
  match items with
  | [] => (Returns tt, tbl)
  | None :: _ => (Throws, tbl)
  | Some t :: rest => upsertFeed now rest (upsert_one now tbl t)
  end.

(** What the ticker request settles to; a body that is no array is wrapped
    in a one-element array by [fetchTickers].  [None] is [null]. *)
Inductive tickers_http : Type :=
| TRejected
| TArray (items : list (option raw_ticker))
| TBody (item : option raw_ticker).

Definition fetchTickers (resp : tickers_http)
    : outcome (list (option raw_ticker)) :=
  match resp with
  | TRejected => Throws
  | TArray items => Returns items
  | TBody item => Returns [item]
  end.

(** [syncTickers]: the count it returns and the table it leaves.  The
    [catch] covers the fetch and the loop of [upsertTickers] alike. *)
Definition syncTickers (resp : tickers_http) (now : string)
    (tbl : gmap string ticker_row) : nat * gmap string ticker_row :=
  match fetchTickers resp with
  | Throws => (0%nat, tbl)
  | Returns tickers =>
      match upsertFeed now tickers tbl with
      | (Returns _, tbl') => (length tickers, tbl')
      | (Throws, tbl') => (0%nat, tbl')
      end
  end.

(** The last element of the feed that carries the symbol [k]. *)
Definition last_for (k : string) (items : list raw_ticker)
    : option raw_ticker :=
  last (filter (fun t => raw_symbol t = k) items).


(** ** Rationals and numbers *)

Lemma Qltb_true (a b : Q) : Qltb a b = true <-> a < b.
Proof.
  unfold Qltb. rewrite negb_true_iff. split.
  - intros H. apply Qnot_le_lt. intros Hle. apply Qle_bool_iff in Hle. congruence.
  - intros H. destruct (Qle_bool b a) eqn:E; [|reflexivity].
    apply Qle_bool_iff in E. lra.
Qed.

Lemma Qltb_false (a b : Q) : Qltb a b = false <-> b <= a.
Proof.
  unfold Qltb. rewrite negb_false_iff. apply Qle_bool_iff.
Qed.

Lemma Qzero_true (a : Q) : Qzero a = true <-> a == 0.
Proof. apply Qeq_bool_iff. Qed.

Lemma Qzero_false (a : Q) : Qzero a = false <-> ~ a == 0.
Proof.
  unfold Qzero. split.
  - intros H E. apply Qeq_bool_iff in E. congruence.
  - intros H. destruct (Qeq_bool a 0) eqn:E; [|reflexivity].
    apply Qeq_bool_iff in E. contradiction.
Qed.

Lemma Qle_bool_false (a b : Q) : Qle_bool a b = false <-> b < a.
Proof.
  split.
  - intros H. apply Qnot_le_lt. intros Hle. apply Qle_bool_iff in Hle. congruence.
  - intros H. destruct (Qle_bool a b) eqn:E; [|reflexivity].
    apply Qle_bool_iff in E. lra.
Qed.

Lemma of_nat_pos (p : nat) : (0 < p)%nat -> 0 < inject_Z (Z.of_nat p).
Proof. intros H. unfold Qlt. simpl. lia. Qed.

Lemma of_nat_ge1 (p : nat) : (0 < p)%nat -> 1 <= inject_Z (Z.of_nat p).
Proof. intros H. unfold Qle. simpl. lia. Qed.

Lemma div_of_nat (x : Q) (p : nat) :
  (0 < p)%nat -> (Fin x / of_nat p)%js = Fin (x / inject_Z (Z.of_nat p)).
Proof.
  intros H. unfold div, of_nat, of_Z.
  assert (Qzero (inject_Z (Z.of_nat p)) = false) as ->; [|done].
  apply Qzero_false. pose proof (of_nat_pos p H). lra.
Qed.

Lemma Qdiv_nonneg (x y : Q) : 0 <= x -> 0 < y -> 0 <= x / y.
Proof. intros. apply Qle_shift_div_l; lra. Qed.

Lemma inject_Z_lt (a b : Z) : inject_Z a < inject_Z b <-> (a < b)%Z.
Proof. unfold Qlt. simpl. lia. Qed.

Lemma inject_Z_le (a b : Z) : inject_Z a <= inject_Z b <-> (a <= b)%Z.
Proof. unfold Qle. simpl. lia. Qed.

Lemma strict_eq_zero (l : Q) : strict_eq (Fin l) (Fin 0) = true <-> l == 0.
Proof. apply Qeq_bool_iff. Qed.

Lemma zero_strict_eq a : zero a -> strict_eq a (Fin 0) = true.
Proof. destruct a; try done. simpl. apply Qeq_bool_iff. Qed.

Lemma sub_NaN_r a : (a - NaN)%js = NaN.
Proof. by destruct a. Qed.

Lemma div_NaN_r a : (a / NaN)%js = NaN.
Proof. by destruct a. Qed.

Lemma num_eq_refl a : num_eq a a.
Proof. destruct a; simpl; done. Qed.

Lemma Qzero_proper (x y : Q) : x == y -> Qzero x = Qzero y.
Proof.
  intros H. destruct (Qzero y) eqn:E.
  - apply Qzero_true. apply Qzero_true in E. lra.
  - apply Qzero_false. apply Qzero_false in E. lra.
Qed.

Lemma Qltb_proper (a x y : Q) : x == y -> Qltb a x = Qltb a y.
Proof.
  intros H. destruct (Qltb a y) eqn:E.
  - apply Qltb_true. apply Qltb_true in E. lra.
  - apply Qltb_false. apply Qltb_false in E. lra.
Qed.

Lemma mul_num_eq_r a (x y : Q) : x == y -> num_eq (a * Fin x)%js (a * Fin y)%js.
Proof.
  intros H. destruct a as [q| |]; cbn [mul num_eq]; [|  |done].
  - by rewrite H.
  - rewrite (Qzero_proper x y H), (Qltb_proper 0 x y H). apply num_eq_refl.
Qed.

Lemma add_num_eq_r a b c : num_eq b c -> num_eq (a + b)%js (a + c)%js.
Proof.
  destruct a as [x| |], b as [y| |], c as [z| |]; cbn [add num_eq]; try done.
  - intros H. by rewrite H.
  - intros ->. apply num_eq_refl.
Qed.

(** Addition of exact numbers is commutative and associative on the nose,
    so a sum does not depend on the order in which a map is enumerated. *)
Lemma Qplus_comm_L (x y : Q) : x + y = y + x.
Proof. unfold Qplus. f_equal; [lia | apply Pos.mul_comm]. Qed.

Lemma Qplus_assoc_L (x y z : Q) : x + y + z = x + (y + z).
Proof.
  unfold Qplus. cbn [Qnum Qden]. f_equal.
  - rewrite !Pos2Z.inj_mul. ring.
  - symmetry. apply Pos.mul_assoc.
Qed.

Lemma js_add_comm (a b : number) : (a + b)%js = (b + a)%js.
Proof.
  destruct a as [x|s|], b as [y|t|]; cbn [add]; try done.
  - by rewrite Qplus_comm_L.
  - by destruct s, t.
Qed.

Lemma js_add_assoc (a b c : number) : (a + b + c)%js = (a + (b + c))%js.
Proof.
  destruct a as [x|s|], b as [y|t|], c as [z|u|]; cbn [add]; try done;
    try (by rewrite Qplus_assoc_L);
    try (by destruct s, t; cbn [add Bool.eqb]);
    try (by destruct t, u; cbn [add Bool.eqb]);
    try (by destruct s, u; cbn [add Bool.eqb]).
  by destruct s, t, u; cbn [add Bool.eqb].
Qed.

Lemma js_add_swap (a b c : number) : (a + b + c)%js = (a + c + b)%js.
Proof. by rewrite js_add_assoc, (js_add_comm b c), <- js_add_assoc. Qed.

Lemma fold_add_perm (l1 l2 : list number) :
  l1 ≡ₚ l2 -> forall z, fold_left add l1 z = fold_left add l2 z.
Proof.
  induction 1 as [|x l1 l2 _ IH|x y l|l1 l2 l3 _ IH1 _ IH2]; intros z;
    cbn [fold_left].
  - done.
  - apply IH.
  - by rewrite js_add_swap.
  - by rewrite IH1, IH2.
Qed.

Lemma fold_add_acc (l : list number) : forall z a,
  fold_left add l (z + a)%js = (fold_left add l z + a)%js.
Proof.
  induction l as [|b l IH]; intros z a; cbn [fold_left]; [done|].
  by rewrite js_add_swap, IH.
Qed.

Lemma fold_add_finite (l : list number) : forall q,
  Forall finite l -> exists r, fold_left add l (Fin q) = Fin r.
Proof.
  induction l as [|a l IH]; intros q Hall; [by eexists|].
  inversion Hall as [|? ? Ha Hl]; subst.
  destruct a as [a| |]; try done. cbn [fold_left add]. by apply IH.
Qed.

Lemma fold_add_zeros (n : nat) : forall acc,
  zero acc -> zero (fold_left add (replicate n (Fin 0)) acc).
Proof.
  induction n as [|n IH]; intros acc Hacc; simpl; [done|].
  apply IH. destruct acc; try done. simpl in *. lra.
Qed.

Lemma or_else_finite a : finite (or_else a (Fin 0)) <-> a <> Inf true /\ a <> Inf false.
Proof.
  unfold or_else. destruct a as [q|[]|]; cbn [truthy]; try (split; [intros []|intros [? ?]; done]).
  - destruct (negb (Qzero q)); split; done.
  - split; done.
Qed.

(** ** Arrays *)

Lemma cell_array_set_eq out i v : cell (array_set out i v) i = Some v.
Proof.
  unfold cell, array_set. case_decide.
  - by rewrite list_lookup_insert_eq.
  - rewrite lookup_app_r by lia. rewrite lookup_app_r by (rewrite length_replicate; lia).
    rewrite length_replicate. by replace (i - length out - (i - length out))%nat with 0%nat by lia.
Qed.

Lemma cell_array_set_ne out i j v :
  i <> j -> cell (array_set out i v) j = cell out j.
Proof.
  intros Hne. unfold cell, array_set. case_decide.
  - by rewrite list_lookup_insert_ne.
  - destruct (decide (j < length out)%nat).
    + by rewrite lookup_app_l.
    + rewrite (lookup_ge_None_2 out j) by lia.
      rewrite lookup_app_r by lia.
      destruct (decide (j < i)%nat).
      * rewrite lookup_app_l by (rewrite length_replicate; lia).
        rewrite lookup_replicate_2; [done | lia].
      * rewrite lookup_ge_None_2; [done|].
        rewrite length_app, length_replicate. simpl. lia.
Qed.

Lemma cell_replicate_None n j : cell (replicate n None) j = None.
Proof.
  unfold cell. destruct (replicate n None !! j) eqn:E; [|done].
  apply lookup_replicate in E. by destruct E as [-> _].
Qed.

Lemma idx_finite values (i : nat) :
  Forall finite values -> (i < length values)%nat ->
  exists q, idx values (Z.of_nat i) = Fin q.
Proof.
  intros Hall Hi. unfold idx.
  destruct (Z.ltb_spec (Z.of_nat i) 0); [lia|].
  rewrite Nat2Z.id.
  destruct (lookup_lt_is_Some_2 values i Hi) as [v Hv].
  rewrite Hv. simpl.
  rewrite Forall_lookup in Hall. specialize (Hall _ _ Hv).
  destruct v; try done. by eexists.
Qed.

Lemma idx_out_of_range values (i : nat) :
  (length values <= i)%nat -> idx values (Z.of_nat i) = NaN.
Proof.
  intros H. unfold idx. destruct (Z.ltb_spec (Z.of_nat i) 0); [done|].
  rewrite Nat2Z.id. by rewrite lookup_ge_None_2.
Qed.

Lemma idx_replicate (c : number) (m i : nat) :
  (i < m)%nat -> idx (replicate m c) (Z.of_nat i) = c.
Proof.
  intros H. unfold idx. destruct (Z.ltb_spec (Z.of_nat i) 0); [lia|].
  rewrite Nat2Z.id. by rewrite lookup_replicate_2.
Qed.

Lemma idx_finite_or_NaN (l : list number) (i : Z) :
  Forall finite l -> idx l i <> Inf true /\ idx l i <> Inf false.
Proof.
  intros Hall. unfold idx. destruct (i <? 0)%Z; [done|].
  destruct (l !! Z.to_nat i) as [v|] eqn:E; [|done].
  rewrite Forall_lookup in Hall. specialize (Hall _ _ E).
  destruct v; done.
Qed.

(** ** calcRSI *)

(** The cell [period + n] holds the RSI of the averages [rsi_avgs _ _ n]. *)
Lemma rsi_loop_cell values period m : forall n out j,
  cell (rsi_loop values period (seq (period + S n) m)
          (rsi_avgs values period n) out) j
  = if decide (period + S n <= j < period + S n + m)%nat
    then Some (rsi_value (fst (rsi_avgs values period (j - period)))
                         (snd (rsi_avgs values period (j - period))))
    else cell out j.
Proof.
  induction m as [|m IH]; intros n out j; simpl.
  - case_decide; [lia | done].
  - replace (S (period + S n)) with (period + S (S n))%nat by lia.
    change (rsi_step values period (period + S n) (rsi_avgs values period n))
      with (rsi_avgs values period (S n)).
    rewrite IH. repeat case_decide; try lia; try done.
    + assert (j = period + S n)%nat as -> by lia.
      rewrite cell_array_set_eq.
      by replace (period + S n - period)%nat with (S n) by lia.
    + rewrite cell_array_set_ne by lia. done.
Qed.

Lemma calcRSI_cell values period j :
  cell (calcRSI values period) j
  = if decide (j = period \/ period < j < length values)%nat
    then Some (rsi_value (fst (rsi_avgs values period (j - period)))
                         (snd (rsi_avgs values period (j - period))))
    else None.
Proof.
  unfold calcRSI.
  replace (period + 1)%nat with (period + 1 + 0)%nat at 1 by lia.
  replace (period + 1 + 0)%nat with (period + S 0)%nat by lia.
  change (rsi_init values period) with (rsi_avgs values period 0).
  rewrite rsi_loop_cell.
  repeat case_decide; try lia; try done.
  - destruct (decide (j = period)) as [->|Hne].
    + rewrite cell_array_set_eq. by rewrite Nat.sub_diag.
    + lia.
  - destruct (decide (j = period)) as [->|Hne].
    + lia.
    + rewrite cell_array_set_ne by done. apply cell_replicate_None.
Qed.

Lemma diff_at_finite values (i : nat) :
  Forall finite values -> (1 <= i < length values)%nat ->
  exists d, diff_at values i = Fin d.
Proof.
  intros Hall Hi. unfold diff_at.
  destruct (idx_finite values i Hall) as [a Ha]; [lia|].
  destruct (idx_finite values (i - 1) Hall) as [b Hb]; [lia|].
  replace (Z.of_nat i - 1)%Z with (Z.of_nat (i - 1)) by lia.
  rewrite Ha, Hb. by eexists.
Qed.

Lemma rsi_seed_nonneg values ixs : forall gain loss,
  Forall finite values ->
  Forall (fun i => 1 <= i < length values)%nat ixs ->
  nonneg gain -> nonneg loss ->
  nonneg (fst (rsi_seed values ixs gain loss)) /\
  nonneg (snd (rsi_seed values ixs gain loss)).
Proof.
  induction ixs as [|i ixs IH]; intros gain loss Hall Hix Hg Hl; simpl; [done|].
  inversion Hix as [|? ? Hi Hrest]; subst.
  destruct (diff_at_finite values i Hall Hi) as [d ->].
  destruct gain as [g| |]; try done. destruct loss as [l| |]; try done.
  simpl in Hg, Hl.
  unfold gt. simpl lt.
  destruct (Qltb 0 d) eqn:E.
  - apply Qltb_true in E. apply IH; simpl; try done. lra.
  - apply Qltb_false in E. apply IH; simpl; try done. lra.
Qed.

Lemma rsi_init_nonneg values period :
  Forall finite values -> (0 < period < length values)%nat ->
  nonneg (fst (rsi_init values period)) /\ nonneg (snd (rsi_init values period)).
Proof.
  intros Hall Hp. unfold rsi_init.
  destruct (rsi_seed_nonneg values (seq 1 period) (Fin 0) (Fin 0) Hall)
    as [Hg Hl]; simpl; try lra.
  { apply Forall_seq. intros j Hj. lia. }
  destruct (rsi_seed values (seq 1 period) (Fin 0) (Fin 0)) as [g l].
  simpl in Hg, Hl. destruct g as [g| |]; try done. destruct l as [l| |]; try done.
  rewrite !div_of_nat by lia. simpl.
  pose proof (of_nat_pos period ltac:(lia)).
  split; apply Qdiv_nonneg; done.
Qed.

Lemma rsi_step_nonneg values period i avgs :
  Forall finite values -> (0 < period)%nat -> (1 <= i < length values)%nat ->
  nonneg (fst avgs) -> nonneg (snd avgs) ->
  nonneg (fst (rsi_step values period i avgs)) /\
  nonneg (snd (rsi_step values period i avgs)).
Proof.
  intros Hall Hp Hi Hg Hl. unfold rsi_step.
  destruct (diff_at_finite values i Hall Hi) as [d ->].
  destruct avgs as [[g| |] [l| |]]; try done. simpl in Hg, Hl.
  pose proof (of_nat_pos period Hp). pose proof (of_nat_ge1 period Hp).
  assert (0 <= g * (inject_Z (Z.of_nat period) - 1)) by nra.
  assert (0 <= l * (inject_Z (Z.of_nat period) - 1)) by nra.
  cbn [fst snd].
  change (of_nat period - Fin 1)%js
    with (Fin (inject_Z (Z.of_nat period) - 1)).
  unfold gt. cbn [lt neg].
  destruct (Qltb 0 d) eqn:E1; destruct (Qltb d 0) eqn:E2;
    try apply Qltb_true in E1; try apply Qltb_false in E1;
    try apply Qltb_true in E2; try apply Qltb_false in E2;
    cbn [mul add]; rewrite !div_of_nat by done; cbn [nonneg];
    split; apply Qdiv_nonneg; try done; lra.
Qed.

Lemma rsi_avgs_nonneg values period n :
  Forall finite values -> (0 < period)%nat -> (period + n < length values)%nat ->
  nonneg (fst (rsi_avgs values period n)) /\
  nonneg (snd (rsi_avgs values period n)).
Proof.
  intros Hall Hp. induction n as [|n IH]; intros Hn; simpl.
  - apply rsi_init_nonneg; [done | lia].
  - destruct IH as [Hg Hl]; [lia|].
    apply rsi_step_nonneg; try done. lia.
Qed.

Lemma rsi_value_range (g l : Q) :
  0 <= g -> 0 <= l ->
  exists x, rsi_value (Fin g) (Fin l) = Fin x /\ 0 <= x <= 100.
Proof.
  intros Hg Hl. unfold rsi_value. cbn [strict_eq].
  destruct (Qeq_bool l 0) eqn:E.
  - exists 100. split; [done | lra].
  - assert (~ l == 0) as Hl0 by (by apply Qzero_false).
    assert (0 < l) as Hlpos.
    { destruct (Qlt_le_dec 0 l) as [?|Hle]; [done|]. exfalso. apply Hl0. lra. }
    assert (0 <= g / l) as Hr by (by apply Qdiv_nonneg).
    assert (Qzero (1 + g / l) = false) as E2.
    { apply Qzero_false. lra. }
    change (Qeq_bool l 0) with (Qzero l) in E.
    cbn [div]. rewrite E. cbn [add div]. rewrite E2.
    cbn [sub]. eexists. split; [done|].
    assert (0 < 1 + g / l) as Hpos by lra.
    assert (0 <= 100 / (1 + g / l)) by (apply Qdiv_nonneg; lra).
    assert (100 / (1 + g / l) <= 100).
    { apply Qle_shift_div_r; [done|]. nra. }
    lra.
Qed.

Lemma rsi_seed_app values a b : forall gain loss,
  rsi_seed values (a ++ b) gain loss
  = rsi_seed values b (fst (rsi_seed values a gain loss))
                      (snd (rsi_seed values a gain loss)).
Proof.
  induction a as [|i a IH]; intros gain loss; cbn [rsi_seed app]; [done|].
  destruct (gt (diff_at values i) (Fin 0)); apply IH.
Qed.

Lemma rsi_init_short values period :
  (0 < period)%nat -> (length values <= period)%nat ->
  snd (rsi_init values period) = NaN.
Proof.
  intros Hp Hlen. unfold rsi_init.
  replace period with (period - 1 + 1)%nat at 1 by lia.
  rewrite seq_app, rsi_seed_app. simpl seq.
  destruct (rsi_seed values (seq 1 (period - 1)) (Fin 0) (Fin 0)) as [g l].
  cbn [fst snd rsi_seed].
  replace (S (period - 1)) with period by lia.
  assert (diff_at values period = NaN) as ->.
  { unfold diff_at. by rewrite idx_out_of_range. }
  unfold gt. cbn [lt snd]. by rewrite sub_NaN_r.
Qed.

Lemma rsi_value_NaN g : rsi_value g NaN = NaN.
Proof. unfold rsi_value. cbn [strict_eq]. by rewrite div_NaN_r. Qed.

(** Every cell [calcRSI] writes for a series of finite prices is a rational
    in [0, 100], except that a series too short for one full period leaves
    NaN in the cell [period]. *)
Lemma calcRSI_cell_cases values period i v :
  (0 < period)%nat -> Forall finite values ->
  cell (calcRSI values period) i = Some v ->
  (v = NaN /\ i = period /\ (length values <= period)%nat)
  \/ (exists x, v = Fin x /\ 0 <= x <= 100).
Proof.
  intros Hp Hall. rewrite calcRSI_cell. case_decide as Hi; [|done].
  intros [= <-].
  destruct (decide (period < length values)%nat) as [Hlong|Hshort].
  - right.
    destruct (rsi_avgs_nonneg values period (i - period) Hall Hp) as [Hg Hl];
      [lia|].
    destruct (rsi_avgs values period (i - period)) as [[g| |] [l| |]];
      try done.
    cbn [fst snd nonneg] in *. by apply rsi_value_range.
  - left. assert (i = period) as -> by lia.
    rewrite Nat.sub_diag. cbn [rsi_avgs].
    rewrite rsi_init_short by lia.
    rewrite rsi_value_NaN. repeat split; lia.
Qed.

(** Three closes with period 14: the read of [values[3]] is undefined and
    the cell 14, past the end of the series, receives NaN. *)
Example calcRSI_short_series :
  calcRSI [Fin 1; Fin 2; Fin 3] 14 = replicate 14 None ++ [Some NaN].
Proof. vm_compute. reflexivity. Qed.

Lemma diff_at_flat (c : Q) (m i : nat) :
  (1 <= i < m)%nat -> diff_at (replicate m (Fin c)) i = Fin (c - c).
Proof.
  intros H. unfold diff_at.
  replace (Z.of_nat i - 1)%Z with (Z.of_nat (i - 1)) by lia.
  by rewrite !idx_replicate by lia.
Qed.

Lemma rsi_seed_flat (c : Q) (m : nat) ixs : forall gain loss,
  Forall (fun i => 1 <= i < m)%nat ixs -> zero loss ->
  zero (snd (rsi_seed (replicate m (Fin c)) ixs gain loss)).
Proof.
  induction ixs as [|i ixs IH]; intros gain loss Hix Hl; simpl; [done|].
  inversion Hix as [|? ? Hi Hrest]; subst.
  rewrite diff_at_flat by done.
  unfold gt. cbn [lt].
  assert (Qltb 0 (c - c) = false) as -> by (apply Qltb_false; lra).
  apply IH; [done|]. destruct loss as [l| |]; try done. simpl in *. lra.
Qed.

Lemma rsi_avgs_flat (c : Q) (m period n : nat) :
  (0 < period)%nat -> (period + n < m)%nat ->
  zero (snd (rsi_avgs (replicate m (Fin c)) period n)).
Proof.
  intros Hp. induction n as [|n IH]; intros Hn.
  - cbn [rsi_avgs]. unfold rsi_init.
    pose proof (rsi_seed_flat c m (seq 1 period) (Fin 0) (Fin 0)) as H.
    destruct (rsi_seed (replicate m (Fin c)) (seq 1 period) (Fin 0) (Fin 0))
      as [g l].
    cbn [snd] in *.
    assert (zero l) as Hl.
    { apply H; [|simpl; lra]. apply Forall_seq. intros; lia. }
    destruct l as [l| |]; try done. rewrite div_of_nat by done.
    simpl in *. rewrite Hl. pose proof (of_nat_pos period Hp).
    field. lra.
  - cbn [rsi_avgs]. specialize (IH ltac:(lia)).
    destruct (rsi_avgs (replicate m (Fin c)) period n) as [g l].
    unfold rsi_step. cbn [fst snd] in *.
    rewrite diff_at_flat by lia. cbn [lt].
    assert (Qltb (c - c) 0 = false) as -> by (apply Qltb_false; lra).
    destruct l as [l| |]; try done.
    change (of_nat period - Fin 1)%js
      with (Fin (inject_Z (Z.of_nat period) - 1)).
    cbn [mul add]. rewrite div_of_nat by done.
    simpl in *. rewrite IH. pose proof (of_nat_pos period Hp).
    field. lra.
Qed.

(** C5.  Wherever [calcRSI] assigns a cell (index [period + n], which is
    [period] itself or a later index of the series) while [avgLoss] is 0,
    the RSI stored there is exactly 100.  A flat series of more than
    [period] identical finite closes (twenty closes for period 14, say) has
    [avgLoss] 0 at every such index, so its RSI is 100 throughout, not 50
    and not null. *)
Theorem rsi_zero_loss_is_100 (values : list number) (period n : nat) :
  (n = 0 \/ period + n < length values)%nat ->
  (strict_eq (snd (rsi_avgs values period n)) (Fin 0) = true ->
   cell (calcRSI values period) (period + n) = Some (Fin 100))
  /\ (forall (c : Q) (m : nat),
        values = replicate m (Fin c) -> (0 < period < m)%nat ->
        strict_eq (snd (rsi_avgs values period n)) (Fin 0) = true
        /\ cell (calcRSI values period) (period + n) = Some (Fin 100)).
Proof.
  intros Hn.
  assert (strict_eq (snd (rsi_avgs values period n)) (Fin 0) = true ->
          cell (calcRSI values period) (period + n) = Some (Fin 100)) as Hmain.
  { intros Hz. rewrite calcRSI_cell. case_decide as Hi; [|lia].
    replace (period + n - period)%nat with n by lia.
    unfold rsi_value. by rewrite Hz. }
  split; [done|].
  intros c m -> Hpm.
  assert (strict_eq (snd (rsi_avgs (replicate m (Fin c)) period n)) (Fin 0)
          = true) as Hz.
  { rewrite length_replicate in Hn.
    pose proof (rsi_avgs_flat c m period n) as H.
    destruct (snd (rsi_avgs (replicate m (Fin c)) period n)) as [l| |] eqn:E.
    - apply strict_eq_zero. apply H; lia.
    - exfalso. apply H; lia.
    - exfalso. apply H; lia. }
  split; [done | by apply Hmain].
Qed.

Lemma rsi_zero_loss_witness :
  (2 = 0 \/ 14 + 2 < length (replicate 20 (Fin 5)))%nat
  /\ strict_eq (snd (rsi_avgs (replicate 20 (Fin 5)) 14 2)) (Fin 0) = true
  /\ cell (calcRSI (replicate 20 (Fin 5)) 14) (14 + 2) = Some (Fin 100).
Proof.
  assert (2 = 0 \/ 14 + 2 < length (replicate 20 (Fin 5)))%nat as Hn
    by (right; cbn; lia).
  split; [exact Hn|].
  destruct (rsi_zero_loss_is_100 (replicate 20 (Fin 5)) 14 2 Hn) as [_ Hflat].
  apply (Hflat 5 20%nat eq_refl). lia.
Defined.

(** C8.  For every series of finite prices and every positive period,
    each cell of [calcRSI] that holds a finite number holds one in the
    closed interval [0, 100]; when the series is longer than the period,
    every cell that is not null holds such a number. *)
Theorem rsi_within_0_100 (values : list number) (period i : nat)
    (v : number) :
  (0 < period)%nat -> Forall finite values ->
  cell (calcRSI values period) i = Some v ->
  (forall x, v = Fin x -> 0 <= x <= 100)
  /\ ((period < length values)%nat -> exists x, v = Fin x).
Proof.
  intros Hp Hall Hc.
  destruct (calcRSI_cell_cases values period i v Hp Hall Hc)
    as [(-> & _ & Hshort)|(y & -> & Hy)].
  - split; [intros x [=] | lia].
  - split; [by intros x [= <-] | intros _; by exists y].
Qed.

Lemma rsi_within_0_100_witness :
  exists x, cell (calcRSI demo_closes 14) 20 = Some (Fin x) /\ 0 <= x <= 100.
Proof.
  destruct (cell (calcRSI demo_closes 14) 20) as [[x| |]|] eqn:E;
    try (vm_compute in E; discriminate E).
  exists x. split; [reflexivity|].
  apply (rsi_within_0_100 demo_closes 14 20 (Fin x)); [lia | | exact E | ].
  - unfold demo_closes. cbn [map]. repeat constructor.
  - reflexivity.
Defined.

(** ** calcEMA and calcMACDHist *)

(** [calcEMA] leaves null before index [period - 1] and a number from there
    to the end of the series. *)
Lemma ema_loop_cell values period k m : forall a ema out j,
  ((a <= j < a + m)%nat -> (Z.of_nat period - 1 <= Z.of_nat j)%Z ->
   is_Some (cell (ema_loop values period k (seq a m) ema out) j))
  /\ (~ ((a <= j < a + m)%nat /\ (Z.of_nat period - 1 <= Z.of_nat j)%Z) ->
      cell (ema_loop values period k (seq a m) ema out) j = cell out j).
Proof.
  induction m as [|m IH]; intros a ema out j; cbn [seq ema_loop].
  - split; [lia | done].
  - destruct (Z.ltb_spec (Z.of_nat a) (Z.of_nat period - 1)) as [Hlt|Hge].
    + destruct (IH (S a) ema out j) as [IH1 IH2]. split.
      * intros Hj Hp. apply IH1; lia.
      * intros Hn. apply IH2. lia.
    + set (ema' := ema_next values period k a ema).
      destruct (IH (S a) ema' (array_set out a ema') j) as [IH1 IH2]. split.
      * intros Hj Hp. destruct (decide (j = a)) as [->|Hne].
        -- rewrite IH2 by lia. rewrite cell_array_set_eq. by eexists.
        -- apply IH1; lia.
      * intros Hn. rewrite IH2 by lia. apply cell_array_set_ne. lia.
Qed.

Lemma calcEMA_defined values period j :
  is_Some (cell (calcEMA values period) j)
  <-> (j < length values)%nat /\ (Z.of_nat period - 1 <= Z.of_nat j)%Z.
Proof.
  unfold calcEMA.
  set (k := (Fin 2 / (of_nat period + Fin 1))%js).
  destruct (ema_loop_cell values period k (length values) 0 (Fin 0)
              (replicate (length values) None) j) as [H1 H2].
  split.
  - intros Hs.
    destruct (decide ((j < length values)%nat
                      /\ (Z.of_nat period - 1 <= Z.of_nat j)%Z)) as [|Hn];
      [done|].
    rewrite H2, cell_replicate_None in Hs by lia.
    by destruct Hs.
  - intros [Hj Hp]. apply H1; [lia | done].
Qed.

Lemma cell_diff_cells n a b i :
  cell (diff_cells n a b) i
  = if decide (i < n)%nat then
      match cell a i, cell b i with
      | Some x, Some y => Some (x - y)%js
      | _, _ => None
      end
    else None.
Proof.
  unfold diff_cells, cell at 1. rewrite list_lookup_fmap.
  case_decide as Hi.
  - rewrite lookup_seq_lt by done. done.
  - rewrite lookup_seq_ge by lia. done.
Qed.

Lemma length_diff_cells n a b : length (diff_cells n a b) = n.
Proof. unfold diff_cells. by rewrite length_map, length_seq. Qed.

Lemma length_macdLine values fast slow :
  length (macdLine values fast slow) = length values.
Proof. apply length_diff_cells. Qed.

Lemma macdLine_cell (values : list number) (fast slow i : nat) :
  cell (macdLine values fast slow) i
  = match cell (calcEMA values fast) i, cell (calcEMA values slow) i with
    | Some a, Some b => Some (a - b)%js
    | _, _ => None
    end.
Proof.
  unfold macdLine. rewrite cell_diff_cells. case_decide as Hi; [done|].
  destruct (cell (calcEMA values fast) i) as [a|] eqn:Ea; [|done].
  assert (is_Some (cell (calcEMA values fast) i)) as Hs by (by eexists).
  apply calcEMA_defined in Hs. lia.
Qed.

Lemma ema_next_seed values period k ema :
  (0 < period)%nat ->
  ema_next values period k (period - 1) ema
  = ema_next values period k (period - 1) (Fin 0).
Proof.
  intros Hp. unfold ema_next.
  by destruct (Z.eqb_spec (Z.of_nat (period - 1)) (Z.of_nat period - 1));
    [|lia].
Qed.

Lemma ema_loop_state values period k m :
  (0 < period)%nat ->
  forall a ema out j,
  ((a <= period - 1)%nat
   \/ ema = ema_from values period k (a - 1 - (period - 1))) ->
  (a <= j < a + m)%nat -> (period - 1 <= j)%nat ->
  cell (ema_loop values period k (seq a m) ema out) j
  = Some (ema_from values period k (j - (period - 1))).
Proof.
  intros Hp. induction m as [|m IH]; intros a ema out j Hst Hj Hpj; [lia|].
  cbn [seq ema_loop].
  destruct (Z.ltb_spec (Z.of_nat a) (Z.of_nat period - 1)) as [Hlt|Hge].
  - apply IH; [left; lia | lia | done].
  - set (ema' := ema_next values period k a ema).
    assert (ema' = ema_from values period k (a - (period - 1))) as Hema.
    { unfold ema'. destruct (decide (a = period - 1)%nat) as [->|Hne].
      - rewrite Nat.sub_diag. cbn [ema_from]. by apply ema_next_seed.
      - destruct Hst as [Hst| ->]; [lia|].
        replace (a - (period - 1))%nat with (S (a - 1 - (period - 1))) by lia.
        cbn [ema_from]. f_equal. lia. }
    destruct (decide (j = a)) as [->|Hja].
    + destruct (ema_loop_cell values period k m (S a) ema'
                  (array_set out a ema') a) as [_ H2].
      rewrite H2 by lia. by rewrite cell_array_set_eq, Hema.
    + apply IH; [right | lia | done].
      rewrite Hema. f_equal. lia.
Qed.

Lemma calcEMA_cell values period j :
  (0 < period)%nat -> (period - 1 <= j < length values)%nat ->
  cell (calcEMA values period) j
  = Some (ema_from values period (ema_k period) (j - (period - 1))).
Proof.
  intros Hp Hj. unfold calcEMA. fold (ema_k period).
  apply ema_loop_state; [done | left; lia | lia | lia].
Qed.

Lemma sum_first_take (values : list number) (m : nat) :
  forall a s, (a + m <= length values)%nat ->
  sum_first values (seq a m) s = fold_left add (take m (drop a values)) s.
Proof.
  induction m as [|m IH]; intros a s Ham; cbn [seq sum_first]; [done|].
  destruct (lookup_lt_is_Some_2 values a ltac:(lia)) as [v Hv].
  rewrite (drop_S _ _ _ Hv). cbn [take fold_left].
  rewrite IH by lia. do 2 f_equal. unfold idx.
  destruct (Z.ltb_spec (Z.of_nat a) 0); [lia|].
  by rewrite Nat2Z.id, Hv.
Qed.

(** [calcEMA] computes the EMA of the specification, with the same
    operations in the same order. *)
Lemma calcEMA_is_EMA (values : list number) (period : nat) :
  (0 < period)%nat -> is_EMA values period (calcEMA values period).
Proof.
  intros Hp. split; [|split].
  - intros i. rewrite calcEMA_defined. lia.
  - intros Hlen. rewrite calcEMA_cell by lia. rewrite Nat.sub_diag.
    cbn [ema_from]. unfold ema_next.
    destruct (Z.eqb_spec (Z.of_nat (period - 1)) (Z.of_nat period - 1));
      [|lia].
    by rewrite (sum_first_take values period 0 (Fin 0)) by lia.
  - intros i e Hi Hlen. rewrite !calcEMA_cell by lia. intros [= <-].
    replace (i + 1 - (period - 1))%nat with (S (i - (period - 1))) by lia.
    cbn [ema_from]. unfold ema_next.
    replace (period - 1 + S (i - (period - 1)))%nat with (i + 1)%nat by lia.
    by destruct (Z.eqb_spec (Z.of_nat (i + 1)) (Z.of_nat period - 1)); [lia|].
Qed.

(** C6.  The MACD line is, index by index, EMA(fast) - EMA(slow), and null
    where either EMA is null; the signal line is the EMA(signal) of the MACD
    line with its nulls replaced by 0; and at every index where the MACD
    line is defined the signal line is defined too and the histogram holds
    their difference.  Each of the three lines is the EMA of the
    specification: null before its seed index, seeded with the sum of the
    first [period] values over [period], and continued by
    [value * k + ema * (1 - k)] with [k = 2 / (period + 1)].  The signal
    period must not exceed the longer EMA period, as in the defaults 12, 26,
    9. *)
Theorem macd_histogram (values : list number) (fast slow signal i : nat)
    (m : number) :
  (signal <= Nat.max fast slow)%nat ->
  cell (macdLine values fast slow) i = Some m ->
  (forall j,
     cell (macdLine values fast slow) j
     = match cell (calcEMA values fast) j, cell (calcEMA values slow) j with
       | Some a, Some b => Some (a - b)%js
       | _, _ => None
       end)
  /\ signalLine values fast slow signal
     = calcEMA (map (fun v => match v with Some x => x | None => Fin 0 end)
                    (macdLine values fast slow)) signal
  /\ (exists s, cell (signalLine values fast slow signal) i = Some s
                /\ cell (calcMACDHist values fast slow signal) i
                   = Some (m - s)%js)
  /\ ((0 < fast)%nat -> is_EMA values fast (calcEMA values fast))
  /\ ((0 < slow)%nat -> is_EMA values slow (calcEMA values slow))
  /\ ((0 < signal)%nat ->
      is_EMA (map (fun v => match v with Some x => x | None => Fin 0 end)
                  (macdLine values fast slow))
             signal (signalLine values fast slow signal)).
Proof.
  intros Hsig Hm.
  split; [intros j; apply macdLine_cell|]. split; [reflexivity|].
  split.
  - assert (is_Some (cell (calcEMA values fast) i)
            /\ is_Some (cell (calcEMA values slow) i)) as [Hfa Hsl].
    { rewrite macdLine_cell in Hm.
      destruct (cell (calcEMA values fast) i); [|done].
      destruct (cell (calcEMA values slow) i); [|done].
      split; by eexists. }
    apply calcEMA_defined in Hfa. apply calcEMA_defined in Hsl.
    assert (is_Some (cell (signalLine values fast slow signal) i)) as [s Hs].
    { unfold signalLine. apply calcEMA_defined.
      unfold macdForSignal. rewrite length_map, length_macdLine. lia. }
    exists s. split; [done|].
    unfold calcMACDHist. rewrite cell_diff_cells, length_macdLine.
    case_decide; [|lia].
    fold (signalLine values fast slow signal). by rewrite Hm, Hs.
  - split; [apply calcEMA_is_EMA|]. split; [apply calcEMA_is_EMA|].
    intros Hp. by apply calcEMA_is_EMA.
Qed.

Lemma macd_histogram_witness :
  exists m s,
    cell (macdLine demo_closes 12 26) 27 = Some m
    /\ cell (signalLine demo_closes 12 26 9) 27 = Some s
    /\ cell (calcMACDHist demo_closes 12 26 9) 27 = Some (m - s)%js
    /\ is_EMA demo_closes 12 (calcEMA demo_closes 12).
Proof.
  destruct (cell (macdLine demo_closes 12 26) 27) as [m|] eqn:E;
    [|vm_compute in E; discriminate E].
  assert (9 <= Nat.max 12 26)%nat as Hsig by (cbn; lia).
  destruct (macd_histogram demo_closes 12 26 9 27 m Hsig E)
    as (_ & _ & (s & Hs & Hh) & Hfast & _).
  exists m, s. split; [reflexivity|]. split; [exact Hs|].
  split; [exact Hh | apply Hfast; lia].
Defined.

(** ** calcVolumeProfile *)

Lemma Math_min_finite (l : list number) :
  l <> [] -> Forall finite l ->
  exists mn, Math_min l = Fin mn /\ Fin mn ∈ l
             /\ forall c, Fin c ∈ l -> mn <= c.
Proof.
  induction l as [|a l IH]; [done|]. intros _ Hall.
  inversion Hall as [|? ? Ha Hl]; subst.
  destruct a as [a| |]; try done.
  destruct l as [|b l].
  - exists a. cbn. split; [done|]. split; [apply elem_of_cons; auto|].
    intros c Hc. apply list_elem_of_singleton in Hc. inversion Hc. lra.
  - destruct (IH ltac:(done) Hl) as (m & Hm & Hin & Hle).
    change (Math_min (Fin a :: b :: l)) with (min2 (Fin a) (Math_min (b :: l))).
    rewrite Hm. cbn [min2 lt].
    destruct (Qltb m a) eqn:E; [apply Qltb_true in E | apply Qltb_false in E].
    + exists m. split; [done|]. split; [apply elem_of_cons; auto|].
      intros c Hc. apply elem_of_cons in Hc as [[= ->]|Hc]; [lra | by apply Hle].
    + exists a. split; [done|]. split; [apply elem_of_cons; auto|].
      intros c Hc. apply elem_of_cons in Hc as [[= ->]|Hc]; [lra|].
      specialize (Hle c Hc). lra.
Qed.

Lemma Math_max_finite (l : list number) :
  l <> [] -> Forall finite l ->
  exists mx, Math_max l = Fin mx /\ Fin mx ∈ l
             /\ forall c, Fin c ∈ l -> c <= mx.
Proof.
  induction l as [|a l IH]; [done|]. intros _ Hall.
  inversion Hall as [|? ? Ha Hl]; subst.
  destruct a as [a| |]; try done.
  destruct l as [|b l].
  - exists a. cbn. split; [done|]. split; [apply elem_of_cons; auto|].
    intros c Hc. apply list_elem_of_singleton in Hc. inversion Hc. lra.
  - destruct (IH ltac:(done) Hl) as (m & Hm & Hin & Hle).
    change (Math_max (Fin a :: b :: l)) with (max2 (Fin a) (Math_max (b :: l))).
    rewrite Hm. cbn [max2 lt].
    destruct (Qltb a m) eqn:E; [apply Qltb_true in E | apply Qltb_false in E].
    + exists m. split; [done|]. split; [apply elem_of_cons; auto|].
      intros c Hc. apply elem_of_cons in Hc as [[= ->]|Hc]; [lra | by apply Hle].
    + exists a. split; [done|]. split; [apply elem_of_cons; auto|].
      intros c Hc. apply elem_of_cons in Hc as [[= ->]|Hc]; [lra|].
      specialize (Hle c Hc). lra.
Qed.

Lemma vp_step_finite (closes : list number) (bins : nat) (mn mx : Q) :
  (0 < bins)%nat -> Math_min closes = Fin mn -> Math_max closes = Fin mx ->
  mn <= mx ->
  exists st, vp_step closes bins = Fin st /\ 0 < st
             /\ (~ mx == mn -> st = (mx - mn) / inject_Z (Z.of_nat bins))
             /\ (mx == mn -> st = 1).
Proof.
  intros Hb Hmn Hmx Hle. unfold vp_step. rewrite Hmn, Hmx. cbn [sub].
  rewrite div_of_nat by done. unfold or_else. cbn [truthy].
  pose proof (of_nat_pos bins Hb) as Hpos.
  destruct (Qzero ((mx - mn) / inject_Z (Z.of_nat bins))) eqn:E; cbn [negb].
  - apply Qzero_true in E.
    assert (mx == mn) as Heq.
    { assert ((mx - mn) / inject_Z (Z.of_nat bins) * inject_Z (Z.of_nat bins)
              == mx - mn) as H by (field; lra).
      rewrite E in H. lra. }
    exists 1. split; [done|]. split; [lra|]. split; [by intros Hne | done].
  - apply Qzero_false in E.
    exists ((mx - mn) / inject_Z (Z.of_nat bins)).
    assert (0 <= (mx - mn) / inject_Z (Z.of_nat bins))
      by (apply Qle_shift_div_l; lra).
    split; [done|]. split; [|split; [done|]].
    + destruct (Qlt_le_dec 0 ((mx - mn) / inject_Z (Z.of_nat bins))); [done|].
      exfalso. apply E. lra.
    + intros Heq. exfalso. apply E. rewrite Heq. field. lra.
Qed.

Lemma as_index_int (q : Q) (z : Z) :
  q == inject_Z z -> (0 <= z)%Z -> as_index (Fin q) = Some (Z.to_nat z).
Proof.
  intros Hq Hz. unfold as_index.
  assert (Qfloor q = z) as Hf by (rewrite Hq; apply Qfloor_Z).
  rewrite Hf.
  assert (Qeq_bool q (inject_Z z) = true) as -> by (by apply Qeq_bool_iff).
  assert (Qle_bool 0 q = true) as ->; [|done].
  apply Qle_bool_iff. rewrite Hq. unfold Qle. simpl. lia.
Qed.

Lemma bucket_index_finite (bins : nat) (mn st c : Q) :
  (0 < bins)%nat -> 0 < st -> mn <= c ->
  as_index (bucket_index bins (Fin mn) (Fin st) (Fin c))
  = Some (bucket_no bins mn st c).
Proof.
  intros Hb Hst Hc. unfold bucket_index, bucket_no.
  cbn [sub div].
  assert (Qzero st = false) as -> by (apply Qzero_false; lra).
  cbn [floor].
  set (f := Qfloor ((c - mn) / st)).
  assert (0 <= f)%Z as Hf.
  { unfold f. assert (0 <= (c - mn) / st) by (apply Qle_shift_div_l; lra).
    change 0%Z with (Qfloor 0). by apply Qfloor_resp_le. }
  change (of_nat bins - Fin 1)%js with (Fin (inject_Z (Z.of_nat bins) - 1)).
  assert (inject_Z (Z.of_nat bins) - 1 == inject_Z (Z.of_nat bins - 1)) as Hb1.
  { unfold Z.sub. rewrite inject_Z_plus. reflexivity. }
  cbn [max2 lt].
  destruct (Qltb 0 (inject_Z f)) eqn:E0;
    [apply Qltb_true in E0 | apply Qltb_false in E0]; cbn [min2 lt].
  - destruct (Qltb (inject_Z f) (inject_Z (Z.of_nat bins) - 1)) eqn:E1;
      [apply Qltb_true in E1 | apply Qltb_false in E1];
      rewrite Hb1 in E1.
    + apply (proj1 (inject_Z_lt _ _)) in E1. rewrite Z.min_r by lia.
      by apply as_index_int.
    + apply (proj1 (inject_Z_le _ _)) in E1. rewrite Z.min_l by lia.
      apply as_index_int; [done | lia].
  - change 0 with (inject_Z 0) in E0. apply (proj1 (inject_Z_le _ _)) in E0.
    assert (f = 0)%Z as Hf0 by lia. rewrite Hf0.
    destruct (Qltb 0 (inject_Z (Z.of_nat bins) - 1)) eqn:E1;
      [apply Qltb_true in E1 | apply Qltb_false in E1];
      rewrite Hb1 in E1; change 0 with (inject_Z 0) in E1.
    + apply (proj1 (inject_Z_lt _ _)) in E1. rewrite Z.min_r by lia.
      by apply (as_index_int 0 0).
    + apply (proj1 (inject_Z_le _ _)) in E1. rewrite Z.min_l by lia.
      apply as_index_int; [done | lia].
Qed.

Lemma bucket_no_edges (bins : nat) (mn mx st c : Q) :
  (0 < bins)%nat -> 0 < st -> mn <= c <= mx ->
  (mx - mn <= st * inject_Z (Z.of_nat bins)) ->
  let b := bucket_no bins mn st c in
  (b < bins)%nat
  /\ mn + inject_Z (Z.of_nat b) * st <= c
  /\ c <= mn + (inject_Z (Z.of_nat b) + 1) * st
  /\ ((b + 1 < bins)%nat -> c < mn + (inject_Z (Z.of_nat b) + 1) * st).
Proof.
  intros Hb Hst [Hc1 Hc2] Hspan b. unfold b, bucket_no.
  set (f := Qfloor ((c - mn) / st)).
  assert (0 <= (c - mn) / st) as Hq by (apply Qle_shift_div_l; lra).
  assert (0 <= f)%Z as Hf.
  { unfold f. change 0%Z with (Qfloor 0). by apply Qfloor_resp_le. }
  pose proof (Qfloor_le ((c - mn) / st)) as Hlo. fold f in Hlo.
  pose proof (Qlt_floor ((c - mn) / st)) as Hhi. fold f in Hhi.
  rewrite inject_Z_plus in Hhi. change (inject_Z 1) with 1 in Hhi.
  assert ((c - mn) / st * st == c - mn) as Hmul by (field; lra).
  assert (inject_Z f * st <= c - mn) as Hlo'.
  { rewrite <- Hmul. apply Qmult_le_compat_r; lra. }
  assert (c - mn < (inject_Z f + 1) * st) as Hhi'.
  { rewrite <- Hmul. apply Qmult_lt_compat_r; lra. }
  clearbody f. clear Hlo Hhi Hmul Hq.
  pose proof (of_nat_pos bins Hb) as Hbpos.
  destruct (Z.min_spec (Z.of_nat bins - 1) f) as [[Hlt ->]|[Hge ->]].
  - rewrite Z2Nat.id by lia.
    assert (inject_Z (Z.of_nat bins - 1) == inject_Z (Z.of_nat bins) - 1) as Hb1.
    { unfold Z.sub. rewrite inject_Z_plus. reflexivity. }
    assert (inject_Z (Z.of_nat bins - 1) <= inject_Z f) as Hbf
      by (apply inject_Z_le; lia).
    split; [lia|]. split; [nra|]. split; [nra|]. intros Hlast. lia.
  - rewrite Z2Nat.id by lia. split; [lia|]. split; [lra|]. split; [lra|].
    intros _. lra.
Qed.

Lemma length_bucket_add buckets ix v :
  length (bucket_add buckets ix v) = length buckets.
Proof. unfold bucket_add. destruct (as_index ix); [apply length_insert | done]. Qed.

Lemma fill_buckets_lookup bins mn step closes volumes ixs :
  forall (buckets : list number) (j : nat) (b : number),
  buckets !! j = Some b ->
  fill_buckets bins mn step closes volumes ixs buckets !! j
  = Some (fold_left add (credited bins mn step closes volumes j ixs) b).
Proof.
  induction ixs as [|i ixs IH]; intros buckets j b Hb; [done|].
  cbn [fill_buckets]. unfold credited. rewrite filter_cons.
  unfold bucket_add at 1.
  destruct (as_index (bucket_index bins mn step (idx closes (Z.of_nat i))))
    as [k|] eqn:Ek.
  - destruct (decide (k = j)) as [->|Hne].
    + rewrite decide_True by done. cbn [map fold_left].
      apply IH. rewrite list_lookup_insert_eq by (by eapply lookup_lt_Some).
      by rewrite Hb.
    + rewrite decide_False by congruence.
      apply IH. by rewrite list_lookup_insert_ne.
  - rewrite decide_False by done. by apply IH.
Qed.

Lemma credited_finite bins mn step closes volumes j ixs :
  Forall finite volumes ->
  Forall finite (credited bins mn step closes volumes j ixs).
Proof.
  intros Hall. unfold credited. apply Forall_fmap, Forall_forall.
  intros i _. cbn. apply or_else_finite. by apply idx_finite_or_NaN.
Qed.

(** The scan returns the first bucket of largest volume. *)
Lemma poc_scan_spec (buckets : list number) (bq : nat -> Q) (n m : nat) :
  forall a p,
  (forall j, (j < n)%nat -> buckets !! j = Some (Fin (bq j))) ->
  (p < a)%nat -> (a + m <= n)%nat ->
  (forall j, (j < a)%nat -> bq j <= bq p /\ ((j < p)%nat -> bq j < bq p)) ->
  let r := poc_scan buckets (seq a m) p in
  (r < a + m)%nat
  /\ forall j, (j < a + m)%nat -> bq j <= bq r /\ ((j < r)%nat -> bq j < bq r).
Proof.
  induction m as [|m IH]; intros a p Hbq Hp Ham Hinv; cbn [seq poc_scan].
  - split; [lia|]. intros j Hj. apply Hinv. lia.
  - rewrite (Hbq a), (Hbq p) by lia. cbn [default from_option id]. unfold gt. cbn [lt].
    destruct (Qltb (bq p) (bq a)) eqn:E;
      [apply Qltb_true in E | apply Qltb_false in E].
    + destruct (IH (S a) a Hbq ltac:(lia) ltac:(lia)) as [Hr Hmax].
      { intros j Hj. destruct (decide (j = a)) as [->|Hne].
        - split; [lra | lia].
        - destruct (Hinv j ltac:(lia)) as [H1 _]. split; [lra|]. intros _. lra. }
      split; [lia|]. intros j Hj. apply Hmax. lia.
    + destruct (IH (S a) p Hbq ltac:(lia) ltac:(lia)) as [Hr Hmax].
      { intros j Hj. destruct (decide (j = a)) as [->|Hne].
        - split; [lra | lia].
        - apply Hinv. lia. }
      split; [lia|]. intros j Hj. apply Hmax. lia.
Qed.




(** ** The scorer *)


(** C2.  The signal is chosen by the first matching test, in the order
    > 20, > 10, <= -20, < -10; on a finite score this means STRONG_BUY above
    20, BUY in (10, 20], STRONG_SELL up to -20, SELL in (-20, -10) and
    NEUTRAL in [-10, 10].  Exactly 20 is BUY and exactly -20 is
    STRONG_SELL. *)
Theorem signal_classification (t : number) (q : Q) :
  classify t =
    (if gt t (Fin 20) then STRONG_BUY
     else if gt t (Fin 10) then BUY
     else if le t (Fin (-20)) then STRONG_SELL
     else if lt t (Fin (-10)) then SELL
     else NEUTRAL)
  /\ (classify (Fin q) = STRONG_BUY <-> 20 < q)
  /\ (classify (Fin q) = BUY <-> 10 < q <= 20)
  /\ (classify (Fin q) = STRONG_SELL <-> q <= -20)
  /\ (classify (Fin q) = SELL <-> -20 < q < -10)
  /\ (classify (Fin q) = NEUTRAL <-> -10 <= q <= 10)
  /\ classify (Fin 20) = BUY
  /\ classify (Fin (-20)) = STRONG_SELL.
Proof.
  split; [reflexivity|].
  unfold classify, gt. cbn [lt le].
  destruct (Qltb 20 q) eqn:E1; [apply Qltb_true in E1 | apply Qltb_false in E1];
  (destruct (Qltb 10 q) eqn:E2; [apply Qltb_true in E2 | apply Qltb_false in E2]);
  (destruct (Qle_bool q (-20)) eqn:E3;
     [apply Qle_bool_iff in E3 | apply Qle_bool_false in E3]);
  (destruct (Qltb q (-10)) eqn:E4; [apply Qltb_true in E4 | apply Qltb_false in E4]);
  repeat split; intros; try done; try lra.
Qed.

Lemma mean_zeros (n : nat) : zero (mean (replicate n (Fin 0))).
Proof.
  unfold mean. rewrite length_replicate. case_decide as Hn; [simpl; lra|].
  pose proof (fold_add_zeros n (Fin 0)) as H.
  destruct (fold_left add (replicate n (Fin 0)) (Fin 0)) as [q| |];
    try (exfalso; apply H; simpl; lra).
  rewrite div_of_nat by lia. simpl in *.
  rewrite H by lra. pose proof (of_nat_pos n ltac:(lia)). field. lra.
Qed.

Lemma volumeMa_zeros RSI_calculate MACD_calculate closes (n : nat) :
  zero (volumeMa (computeIndicators RSI_calculate MACD_calculate closes
                    (replicate n (Fin 0)))).
Proof.
  unfold computeIndicators. cbn [volumeMa].
  rewrite length_replicate. case_decide.
  - unfold slice_last. rewrite drop_replicate. apply mean_zeros.
  - apply mean_zeros.
Qed.

(** C10.  When the trailing volume average is 0, [volumeRatio] is 1 and no
    division takes place; the volume sub-score is then 0, the total score is
    the weighted sum with that 0 and the signal is its classification.  An
    all-zero volume series of any length, the empty one included, has
    average 0. *)
Theorem zero_volume_average
    (RSI_calculate : list number -> list number)
    (MACD_calculate : list number -> list macd_entry)
    (closes volumes : list number) :
  let s := computeIndicators RSI_calculate MACD_calculate closes volumes in
  strict_eq (volumeMa s) (Fin 0) = true ->
  volumeRatio s = Fin 1
  /\ Spec.volumeScore (volumeRatio s) = Fin 0
  /\ totalScore s =
       (Spec.rsiScore (rsi s) * Fin 0.25
        + Spec.macdScore (macd_hist (macd s)) * Fin 0.25
        + Spec.priceScore (priceChange s) * Fin 0.25
        + Fin 0 * Fin 0.15
        + Spec.maScore (maSignal s) * Fin 0.1)%js
  /\ signal s = classify (totalScore s)
  /\ (forall n : nat,
        strict_eq
          (volumeMa (computeIndicators RSI_calculate MACD_calculate closes
                       (replicate n (Fin 0)))) (Fin 0) = true).
Proof.
  intros s Hz.
  assert (volumeRatio s = Fin 1) as Hr.
  { revert Hz. unfold s, computeIndicators. cbn [volumeMa volumeRatio].
    by intros ->. }
  split; [done|]. split; [by rewrite Hr|]. split.
  - revert Hr. unfold s, computeIndicators.
    cbn [totalScore rsi macd macd_hist priceChange volumeRatio maSignal].
    intros ->. reflexivity.
  - split; [reflexivity|].
    intros n. apply zero_strict_eq, volumeMa_zeros.
Qed.

Lemma zero_volume_average_witness :
  let s := computeIndicators (fun _ => []) (fun _ => []) [Fin 1; Fin 2] [] in
  strict_eq (volumeMa s) (Fin 0) = true
  /\ volumeRatio s = Fin 1
  /\ Spec.volumeScore (volumeRatio s) = Fin 0.
Proof.
  intros s.
  assert (strict_eq (volumeMa s) (Fin 0) = true) as Hz by reflexivity.
  split; [exact Hz|].
  destruct (zero_volume_average (fun _ => []) (fun _ => []) [Fin 1; Fin 2] []
              Hz) as (Hr & Hv & _).
  split; [exact Hr | exact Hv].
Defined.

(** ** Filtering and ranking *)

Lemma sort_insert_perm {A} (cmp : A -> A -> number) (x : A) (l : list A) :
  sort_insert cmp x l ≡ₚ x :: l.
Proof.
  induction l as [|y l IH]; cbn [sort_insert]; [done|].
  destruct (gt (cmp x y) (Fin 0)); [|done].
  rewrite IH. apply Permutation_swap.
Qed.

Lemma js_sort_perm {A} (cmp : A -> A -> number) (l : list A) :
  js_sort cmp l ≡ₚ l.
Proof.
  induction l as [|x l IH]; [done|].
  cbn [js_sort foldr]. fold (js_sort cmp l).
  by rewrite sort_insert_perm, IH.
Qed.

Lemma sort_insert_sorted (x : entry) (l : list entry) :
  finite (avg_score x) -> Forall (fun y => finite (avg_score y)) l ->
  StronglySorted score_desc l ->
  StronglySorted score_desc (sort_insert byScoreDesc x l).
Proof.
  intros Hx Hall Hs. induction Hs as [|y l Hsl IH Hy]; cbn [sort_insert].
  - by repeat constructor.
  - inversion Hall as [|? ? Hfy Hfl]; subst.
    unfold byScoreDesc at 1, gt.
    destruct (avg_score x) as [qx| |] eqn:Ex; try done.
    destruct (avg_score y) as [qy| |] eqn:Ey; try done.
    cbn [sub lt].
    destruct (Qltb 0 (qy - qx)) eqn:E;
      [apply Qltb_true in E | apply Qltb_false in E].
    + constructor; [by apply IH|].
      rewrite sort_insert_perm. constructor; [|done].
      unfold score_desc. rewrite Ex, Ey. cbn. apply Qle_bool_iff. lra.
    + constructor; [by constructor|].
      constructor.
      * unfold score_desc. rewrite Ex, Ey. cbn. apply Qle_bool_iff. lra.
      * rewrite Forall_forall in Hy |- *. intros z Hz.
        specialize (Hy z Hz). rewrite Forall_forall in Hfl.
        specialize (Hfl z Hz). unfold score_desc in *.
        rewrite Ex. rewrite Ey in Hy.
        destruct (avg_score z) as [qz| |]; try done. cbn in *.
        apply Qle_bool_iff in Hy. apply Qle_bool_iff. lra.
Qed.

Lemma js_sort_sorted (l : list entry) :
  Forall (fun y => finite (avg_score y)) l ->
  StronglySorted score_desc (js_sort byScoreDesc l).
Proof.
  induction 1 as [|x l Hx Hl IH]; [constructor|].
  cbn [js_sort foldr]. fold (js_sort byScoreDesc l).
  apply sort_insert_sorted; [done| |done].
  by rewrite js_sort_perm.
Qed.

Lemma slice_to_of_nat {A} (arr : list A) (n : nat) :
  slice_to arr (of_nat n) = take n arr.
Proof.
  unfold slice_to, of_nat, of_Z.
  assert (Qle_bool 0 (inject_Z (Z.of_nat n)) = true) as ->.
  { apply Qle_bool_iff. unfold Qle. simpl. lia. }
  rewrite Qfloor_Z. destruct (Z.ltb_spec (Z.of_nat n) 0); [lia|].
  by rewrite Nat2Z.id.
Qed.

Lemma slice_to_subseteq {A} (arr : list A) (e : number) (x : A) :
  x ∈ slice_to arr e -> x ∈ arr.
Proof.
  unfold slice_to. destruct e as [q|[]|]; try done.
  - destruct (_ <? 0)%Z; apply subseteq_take.
  - by intros H%elem_of_nil.
  - by intros H%elem_of_nil.
Qed.

Lemma filter_ge_finite (ms : Q) (l : list entry) :
  Forall (fun y => finite (avg_score y)) l ->
  filter (fun x => ge (avg_score x) (Fin ms) = true) l
  = filter (fun x => lt (avg_score x) (Fin ms) = false) l.
Proof.
  induction 1 as [|x l Hx Hl IH]; [done|].
  rewrite !filter_cons, IH.
  destruct (avg_score x) as [q| |] eqn:E; try done.
  unfold ge. cbn [le lt].
  destruct (Qle_bool ms q) eqn:E1.
  - apply Qle_bool_iff in E1.
    rewrite decide_True by done.
    rewrite decide_True; [done|]. by apply Qltb_false.
  - rewrite decide_False by done.
    rewrite decide_False; [done|]. intros H. apply Qltb_false in H.
    apply Qle_bool_iff in H. congruence.
Qed.

Lemma respond_subseteq minScore limit analyzed e :
  e ∈ symbols (respond minScore limit analyzed) -> e ∈ analyzed.
Proof.
  unfold respond. cbn [symbols]. intros H%slice_to_subseteq.
  rewrite js_sort_perm in H. unfold filterByScore in H.
  destruct minScore; [|done]. by apply list_elem_of_filter in H as [_ H].
Qed.

(** A [min_score] that is present but not numeric reaches the filter as
    NaN and removes every symbol. *)
Lemma filterByScore_NaN (analyzed : list entry) :
  filterByScore (Some NaN) analyzed = [].
Proof.
  unfold filterByScore. induction analyzed as [|x l IH]; [done|].
  rewrite filter_cons, IH. rewrite decide_False; [done|].
  unfold ge. by destruct (avg_score x).
Qed.

(** X27.
    Lines 255-261 on a request whose [min_score] is absent or a finite
    number and whose [limit] is a natural number, with finite average
    scores: the symbols whose average is below [minScore] are dropped, the
    remaining ones are put in order of falling average, the response holds
    the first [limit] of them and [total] is the number that remained
    before the cut. *)
Theorem filter_rank (minScore : option Q) (limit : nat)
    (analyzed : list entry) :
  Forall (fun x => finite (avg_score x)) analyzed ->
  let kept :=
    match minScore with
    | None => analyzed
    | Some ms => filter (fun x => lt (avg_score x) (Fin ms) = false) analyzed
    end in
  let r := respond (Fin <$> minScore) (of_nat limit) analyzed in
  exists ranked,
    ranked ≡ₚ kept
    /\ StronglySorted score_desc ranked
    /\ symbols r = take limit ranked
    /\ total r = length kept.
Proof.
  intros Hfin kept r.
  assert (filterByScore (Fin <$> minScore) analyzed = kept) as Hk.
  { unfold kept. destruct minScore as [ms|]; [|done].
    cbn. by apply filter_ge_finite. }
  assert (Forall (fun x => finite (avg_score x)) kept) as Hkf.
  { unfold kept. destruct minScore; [|done].
    rewrite Forall_forall in Hfin |- *. intros x Hx.
    apply list_elem_of_filter in Hx as [_ Hx]. by apply Hfin. }
  exists (js_sort byScoreDesc kept).
  split; [apply js_sort_perm|].
  split; [by apply js_sort_sorted|].
  unfold r, respond. cbn [symbols total]. rewrite Hk, slice_to_of_nat.
  split; [done|]. by rewrite js_sort_perm.
Qed.

Lemma filter_rank_witness :
  Forall (fun x => finite (avg_score x)) demo_entries
  /\ exists ranked,
       StronglySorted score_desc ranked
       /\ symbols (respond (Some (Fin 5)) (of_nat 1) demo_entries)
          = take 1 ranked
       /\ total (respond (Some (Fin 5)) (of_nat 1) demo_entries) = 2%nat.
Proof.
  assert (Forall (fun x => finite (avg_score x)) demo_entries) as Hfin
    by (unfold demo_entries; repeat constructor).
  split; [exact Hfin|].
  destruct (filter_rank (Some 5) 1 demo_entries Hfin)
    as (ranked & _ & Hsorted & Hsym & Htotal).
  exists ranked. split; [exact Hsorted|]. split; [exact Hsym|].
  etrans; [exact Htotal | vm_compute; reflexivity].
Defined.

(** C7 at a request with [min_score=abc].  [Number] makes it NaN; the test
    [!isNaN(ms)] of line 257 guards only the no-op [symbols = symbols], and
    the filter of line 258 runs with [x.avg_score >= NaN], which no symbol
    passes.  Whatever was analyzed and whatever the limit, the response is
    empty and [total] is 0, although no average is below NaN and the filter
    of the specification would drop nothing; the same request without
    [min_score] is answered with the symbol. *)
Theorem min_score_nan_drops_all (limit : number) (analyzed : list entry) :
  symbols (respond (Some NaN) limit analyzed) = []
  /\ total (respond (Some NaN) limit analyzed) = 0%nat
  /\ dropBelow (Some NaN) analyzed = analyzed
  /\ analyze (fun _ => []) (fun _ => []) demo_get (fun _ w => w)
       ["15m"%string] (Fin 50) (Some NaN) [Ticker "OK" (Fin 9)] tt
     = (Returns (Response [] 0), tt)
  /\ exists r,
       analyze (fun _ => []) (fun _ => []) demo_get (fun _ w => w)
         ["15m"%string] (Fin 50) None [Ticker "OK" (Fin 9)] tt
       = (Returns r, tt)
       /\ e_symbol <$> symbols r = ["OK"%string] /\ total r = 1%nat.
Proof.
  assert (slice_to (@nil entry) limit = []) as Hslice.
  { unfold slice_to. destruct limit as [q|[]|]; try done.
    destruct (_ <? 0)%Z; apply take_nil. }
  split.
  { unfold respond. cbn [symbols]. by rewrite filterByScore_NaN. }
  split.
  { unfold respond. cbn [total]. by rewrite filterByScore_NaN. }
  split.
  { unfold dropBelow. induction analyzed as [|x l IH]; [done|].
    rewrite filter_cons, IH. rewrite decide_True; [done|].
    by destruct (avg_score x). }
  split; [vm_compute; reflexivity|].
  eexists. split; [reflexivity|]. split; vm_compute; reflexivity.
Qed.

(** ** The analyze handler *)

Lemma sum_scores_fold (m : gmap string analysis) :
  sum_scores m = fold_left add (scores m) (Fin 0).
Proof.
  unfold sum_scores, scores. rewrite map_fold_foldr.
  induction (map_to_list m) as [|[k a] l IH]; [done|].
  cbn [foldr map fold_left uncurry fst snd]. rewrite IH.
  by rewrite fold_add_acc.
Qed.

Lemma length_scores (m : gmap string analysis) : length (scores m) = size m.
Proof. unfold scores. by rewrite length_map, length_map_to_list. Qed.

Lemma average_is_mean (m : gmap string analysis) (l : list number) :
  m <> ∅ -> l ≡ₚ scores m -> average m = mean l.
Proof.
  intros Hne Hl. unfold average, mean.
  assert (length l = size m) as Hlen by (by rewrite Hl, length_scores).
  case_decide as H0.
  - exfalso. apply Hne. apply map_size_empty_iff. lia.
  - by rewrite sum_scores_fold, Hlen, (fold_add_perm _ _ Hl).
Qed.

Section AnalyzeFacts.

Context {World : Type}.
Variable RSI_calculate : list number -> list number.
Variable MACD_calculate : list number -> list macd_entry.
Variable axios_get :
  string -> string * interval * nat -> World -> http * World.
Variable storeAnalysis : analysis -> World -> World.

Abbreviation fetchK := (fetchKlines axios_get).
Abbreviation analyseK := (analyse RSI_calculate MACD_calculate).
Abbreviation loopTf :=
  (analyzeTimeframes RSI_calculate MACD_calculate axios_get storeAnalysis).
Abbreviation loopSym :=
  (analyzeSymbols RSI_calculate MACD_calculate axios_get storeAnalysis).
Abbreviation handler :=
  (analyze RSI_calculate MACD_calculate axios_get storeAnalysis).
Abbreviation route :=
  (analyzeRoute RSI_calculate MACD_calculate axios_get storeAnalysis).
Abbreviation fetchesK :=
  (fetches RSI_calculate MACD_calculate axios_get storeAnalysis).
Abbreviation recordK := (record RSI_calculate MACD_calculate).
Abbreviation usableK :=
  (usable RSI_calculate MACD_calculate axios_get storeAnalysis).
Abbreviation pushedK :=
  (pushed RSI_calculate MACD_calculate axios_get storeAnalysis).

Lemma rows_of_cons (k : option kline) (kl : list (option kline))
    (ks : list kline) :
  rows_of (k :: kl) = Some ks -> ks <> [].
Proof.
  cbn. destruct k as [k0|]; [|done]. destruct (rows_of kl); [|done].
  by intros [= <-].
Qed.

Lemma rows_of_Some (kl : list (option kline)) :
  None ∉ kl -> is_Some (rows_of kl).
Proof.
  induction kl as [|[k|] kl IH]; intros Hnone.
  - by eexists.
  - cbn. destruct IH as [ks ->]; [|by eexists].
    intros Hin. apply Hnone, elem_of_cons. by right.
  - exfalso. apply Hnone, elem_of_cons. by left.
Qed.

Lemma rows_of_None (kl : list (option kline)) :
  None ∈ kl -> rows_of kl = None.
Proof.
  induction kl as [|[k|] kl IH]; intros Hin.
  - by apply elem_of_nil in Hin.
  - apply elem_of_cons in Hin as [[=]|Hin]. cbn. by rewrite IH.
  - done.
Qed.

Lemma analyzeTimeframes_fetches (s : ticker) (tfs : list string) :
  forall acc w m w',
  loopTf s tfs acc w = (Returns m, w') ->
  m = foldl (recordK s) acc (fetchesK s tfs w)
  /\ map fst (fetchesK s tfs w) = tfs.
Proof.
  induction tfs as [|tf rest IH]; intros acc w m w' Hrun.
  - cbn in Hrun. inversion Hrun; subst. done.
  - cbn [analyzeTimeframes] in Hrun. unfold bind at 1 in Hrun.
    cbn [fetches].
    destruct (fetchK (symbol s) tf 500%nat w) as [[|kl] w1]; [done|].
    destruct kl as [|k kl].
    + destruct (IH _ _ _ _ Hrun) as [-> Hf]. cbn. by rewrite Hf.
    + unfold bind at 1, candles in Hrun.
      destruct (rows_of (k :: kl)) as [ks|] eqn:Erows; [|done].
      apply rows_of_cons in Erows. destruct ks as [|k0 ks]; [done|].
      unfold bind, store in Hrun.
      destruct (IH _ _ _ _ Hrun) as [-> Hf]. cbn. by rewrite Hf.
Qed.

Lemma foldl_record_lookup (s : ticker) (F : list (string * list kline)) :
  forall acc tf a,
  foldl (recordK s) acc F !! tf = Some a ->
  acc !! tf = Some a
  \/ exists kl, kl <> [] /\ (tf, kl) ∈ F /\ a = analyseK s tf kl.
Proof.
  induction F as [|[t kl] F IH]; intros acc tf a Hm; [by left|].
  cbn [foldl] in Hm. apply IH in Hm as [Hm|(kl' & Hne & Hin & ->)].
  - unfold record, obj_set in Hm. cbn [fst snd] in Hm.
    destruct kl as [|k kl]; [by left|].
    destruct (String.eqb t "__proto__"); [by left|].
    destruct (decide (t = tf)) as [->|Hneq].
    + rewrite lookup_insert_eq in Hm. inversion Hm; subst.
      right. exists (k :: kl). split; [done|]. split; [|done].
      apply elem_of_cons. by left.
    + rewrite lookup_insert_ne in Hm by done. by left.
  - right. exists kl'. split; [done|]. split; [|done].
    apply elem_of_cons. by right.
Qed.

Lemma foldl_record_dom (s : ticker) (F : list (string * list kline)) :
  forall acc tf,
  is_Some (foldl (recordK s) acc F !! tf)
  <-> is_Some (acc !! tf)
      \/ (tf <> "__proto__"%string /\ exists kl, kl <> [] /\ (tf, kl) ∈ F).
Proof.
  induction F as [|[t kl] F IH]; intros acc tf.
  - cbn. split; [by left|]. intros [H|(_ & kl & _ & Hin)]; [done|].
    by apply elem_of_nil in Hin.
  - cbn [foldl]. rewrite IH. unfold record, obj_set. cbn [fst snd].
    split.
    + intros [H|(Hp & kl' & Hne & Hin)].
      * destruct kl as [|k kl]; [by left|].
        destruct (String.eqb_spec t "__proto__") as [->|Hproto]; [by left|].
        destruct (decide (t = tf)) as [->|Hneq].
        -- right. split; [done|]. exists (k :: kl). split; [done|].
           apply elem_of_cons. by left.
        -- rewrite lookup_insert_ne in H by done. by left.
      * right. split; [done|]. exists kl'. split; [done|].
        apply elem_of_cons. by right.
    + intros [H|(Hp & kl' & Hne & Hin)].
      * left. destruct kl as [|k kl]; [done|].
        destruct (String.eqb t "__proto__"); [done|].
        destruct (decide (t = tf)) as [->|Hneq].
        -- rewrite lookup_insert_eq. by eexists.
        -- by rewrite lookup_insert_ne.
      * apply elem_of_cons in Hin as [[= -> ->]|Hin].
        -- left. destruct kl as [|k kl]; [done|].
           destruct (String.eqb_spec t "__proto__") as [->|Hproto]; [done|].
           rewrite lookup_insert_eq. by eexists.
        -- right. split; [done|]. by exists kl'.
Qed.

Lemma analyzeTimeframes_returns (s : ticker) (tfs : list string) :
  forall acc w,
  map fst (fetchesK s tfs w) = tfs ->
  exists w',
    loopTf s tfs acc w = (Returns (foldl (recordK s) acc (fetchesK s tfs w)), w').
Proof.
  induction tfs as [|tf rest IH]; intros acc w Hf.
  - by exists w.
  - cbn [analyzeTimeframes fetches] in *. unfold bind at 1.
    destruct (fetchK (symbol s) tf 500%nat w) as [[|kl] w1]; [done|].
    destruct kl as [|k kl].
    + cbn [rows_of map fst] in Hf. inversion Hf as [Hrest].
      cbn [rows_of]. rewrite Hrest. by apply IH.
    + unfold bind at 1, candles.
      destruct (rows_of (k :: kl)) as [ks|] eqn:Erows; [|done].
      apply rows_of_cons in Erows. destruct ks as [|k0 ks]; [done|].
      cbn [map fst] in Hf. inversion Hf as [Hrest].
      unfold bind, store. rewrite Hrest. by apply IH.
Qed.

Lemma foldl_record_empty (s : ticker) (F : list (string * list kline)) :
  forall acc, Forall (fun f => f.2 = []) F -> foldl (recordK s) acc F = acc.
Proof.
  induction F as [|[t kl] F IH]; intros acc Hall; [done|].
  inversion Hall as [|? ? Hkl HF]; subst. cbn in Hkl. subst kl.
  cbn [foldl]. by apply IH.
Qed.

Lemma pushed_mono tfs s candidates e :
  pushedK tfs candidates e -> pushedK tfs (s :: candidates) e.
Proof.
  intros (Hne & Havg & s' & w0 & Hin & H).
  split; [done|]. split; [done|]. exists s', w0.
  split; [|done]. apply elem_of_cons. by right.
Qed.

Lemma analyzeSymbols_pushed (tfs : list string) (candidates : list ticker) :
  forall acc w analyzed w',
  loopSym tfs candidates acc w = (Returns analyzed, w') ->
  exists new, analyzed = acc ++ new /\ Forall (pushedK tfs candidates) new.
Proof.
  induction candidates as [|s rest IH]; intros acc w analyzed w' Hrun.
  - cbn in Hrun. inversion Hrun; subst. exists []. by rewrite app_nil_r.
  - cbn [analyzeSymbols] in Hrun. unfold bind at 1 in Hrun.
    destruct (loopTf s tfs ∅ w) as [[|m] w1] eqn:Etf; [done|].
    apply analyzeTimeframes_fetches in Etf as [Hm Hf].
    case_decide as Hsize.
    + apply IH in Hrun as (new & -> & Hnew). exists new. split; [done|].
      eapply Forall_impl; [exact Hnew|]. intros e. apply pushed_mono.
    + apply IH in Hrun as (new & -> & Hnew).
      exists (Entry (symbol s) (volume_24h s) m (average m) :: new).
      split; [by rewrite <- app_assoc|].
      constructor.
      * split; [cbn; intros Hm0; by apply Hsize, map_size_empty_iff|].
        split; [done|].
        exists s, w. split; [apply elem_of_cons; by left|]. done.
      * eapply Forall_impl; [exact Hnew|]. intros e. apply pushed_mono.
Qed.

(** A candidate whose timeframe loop has a usable unit is pushed. *)
Lemma analyzeSymbols_push (tfs : list string) (s : ticker)
    (rest : list ticker) (acc : list entry) (w0 : World) :
  map fst (fetchesK s tfs w0) = tfs -> usableK s tfs w0 ->
  exists m w1,
    m <> ∅
    /\ loopTf s tfs ∅ w0 = (Returns m, w1)
    /\ loopSym tfs (s :: rest) acc w0
       = loopSym tfs rest
           (acc ++ [Entry (symbol s) (volume_24h s) m (average m)]) w1.
Proof.
  intros Hf (tf & ks & Hin & Hne & Hproto).
  destruct (analyzeTimeframes_returns s tfs ∅ w0 Hf) as [w1 Hret].
  set (m := foldl (recordK s) ∅ (fetchesK s tfs w0)) in *.
  assert (is_Some (m !! tf)) as [a Ha].
  { apply foldl_record_dom. right. split; [done|]. by exists ks. }
  assert (m <> ∅) as Hm.
  { intros Hm. rewrite Hm, lookup_empty in Ha. done. }
  exists m, w1. split; [done|]. split; [done|].
  cbn [analyzeSymbols]. unfold bind at 1. rewrite Hret.
  rewrite decide_False; [done|]. by rewrite map_size_empty_iff.
Qed.

Lemma analyzeSymbols_includes (tfs : list string)
    (candidates : list ticker) :
  forall acc w analyzed w',
  loopSym tfs candidates acc w = (Returns analyzed, w') ->
  forall s, s ∈ candidates -> (forall w0, usableK s tfs w0) ->
  exists e, e ∈ analyzed
            /\ e_symbol e = symbol s /\ e_volume_24h e = volume_24h s.
Proof.
  induction candidates as [|c rest IH]; intros acc w analyzed w' Hrun s Hin Hus.
  - by apply elem_of_nil in Hin.
  - apply elem_of_cons in Hin as [->|Hin].
    + cbn [analyzeSymbols] in Hrun. unfold bind at 1 in Hrun.
      destruct (loopTf c tfs ∅ w) as [[|m] w1] eqn:Etf; [done|].
      destruct (analyzeTimeframes_fetches _ _ _ _ _ _ Etf) as [Hm Hf].
      destruct (analyzeSymbols_push tfs c rest acc w Hf (Hus w))
        as (m' & w1' & Hne & Hret & _).
      rewrite Etf in Hret. inversion Hret; subst m' w1'.
      rewrite decide_False in Hrun by (by rewrite map_size_empty_iff).
      apply analyzeSymbols_pushed in Hrun as (new & -> & _).
      exists (Entry (symbol c) (volume_24h c) m (average m)).
      split; [|done]. rewrite !elem_of_app. left. right.
      apply list_elem_of_singleton. done.
    + cbn [analyzeSymbols] in Hrun. unfold bind at 1 in Hrun.
      destruct (loopTf c tfs ∅ w) as [[|m] w1]; [done|].
      case_decide; eapply IH; eauto.
Qed.

(** X28.
    When the handler answers, its response is cut (filter, sort,
    slice) from a list [analyzed] with these properties.  Every element [e]
    of it, so every symbol of the response, comes from a candidate whose
    timeframe loop ran to its end, and: its [timeframes] map is not empty;
    the map has a key exactly for the timeframes, other than [__proto__],
    one of whose units returned candles, each holding the analysis of such
    candles (nothing is stored for a timeframe without candles); and
    [avg_score] is the sum of the [total_score]s of the map, taken in one
    of their orders, divided by their number.  Conversely, with finite
    volumes, each of the first 100 candidates by volume that has a unit
    with candles is in [analyzed]: in the loop it is pushed with its map,
    while a candidate all of whose units are without candles leaves
    [analyzed] unchanged. *)
Theorem analyze_average (tfs : list string) (limit : number)
    (minScore : option number) (candidates : list ticker) (w w' : World)
    (r : response) :
  handler tfs limit minScore candidates w = (Returns r, w') ->
  (exists analyzed,
     r = respond minScore limit analyzed
     /\ (forall e, e ∈ symbols r -> e ∈ analyzed)
     /\ (forall e, e ∈ analyzed ->
           timeframes e <> ∅
           /\ (exists l, l ≡ₚ scores (timeframes e)
                         /\ length l = size (timeframes e)
                         /\ avg_score e = mean l)
           /\ exists s w0,
                s ∈ candidates /\ e_symbol e = symbol s
                /\ e_volume_24h e = volume_24h s
                /\ map fst (fetchesK s tfs w0) = tfs
                /\ (forall tf, is_Some (timeframes e !! tf)
                      <-> tf <> "__proto__"%string
                          /\ exists kl, kl <> []
                                        /\ (tf, kl) ∈ fetchesK s tfs w0)
                /\ (forall tf a, timeframes e !! tf = Some a ->
                      exists kl, kl <> [] /\ (tf, kl) ∈ fetchesK s tfs w0
                                 /\ a = analyseK s tf kl))
     /\ (Forall (fun s => finite (volume_24h s)) candidates ->
         forall s, s ∈ top100 candidates -> (forall w0, usableK s tfs w0) ->
           exists e, e ∈ analyzed /\ e_symbol e = symbol s
                     /\ e_volume_24h e = volume_24h s))
  /\ (forall s rest acc w0,
        map fst (fetchesK s tfs w0) = tfs -> usableK s tfs w0 ->
        exists m w1,
          m <> ∅
          /\ loopSym tfs (s :: rest) acc w0
             = loopSym tfs rest
                 (acc ++ [Entry (symbol s) (volume_24h s) m (average m)]) w1)
  /\ (forall s rest acc w0,
        map fst (fetchesK s tfs w0) = tfs ->
        Forall (fun f => f.2 = []) (fetchesK s tfs w0) ->
        exists w1, loopSym tfs (s :: rest) acc w0 = loopSym tfs rest acc w1).
Proof.
  intros Hrun. split; [|split].
  - unfold analyze, bind in Hrun.
    destruct (loopSym tfs _ [] w) as [[|analyzed] w1] eqn:Eloop; [done|].
    unfold ret in Hrun. inversion Hrun; subst r w1. clear Hrun.
    exists analyzed. split; [done|].
    split; [intros e; apply respond_subseteq|].
    split.
    + intros e He.
      apply analyzeSymbols_pushed in Eloop as (new & -> & Hnew).
      cbn [app] in He. rewrite Forall_forall in Hnew.
      destruct (Hnew e He)
        as (Hne & Havg & s & w0 & Hin & Hsym & Hvol & Hf & Hm).
      split; [done|]. split.
      { exists (scores (timeframes e)). split; [done|].
        split; [apply length_scores|].
        rewrite Havg. by apply average_is_mean. }
      exists s, w0. split.
      { apply subseteq_take in Hin. by rewrite js_sort_perm in Hin. }
      split; [done|]. split; [done|].
      split; [done|]. split.
      * intros tf. rewrite Hm, foldl_record_dom. rewrite lookup_empty.
        split; [intros [[? [=]]|H]; done | by right].
      * intros tf a Ha. rewrite Hm in Ha.
        apply foldl_record_lookup in Ha as [Ha|Ha]; [|done].
        by rewrite lookup_empty in Ha.
    + intros _ s Hin Hus.
      by apply (analyzeSymbols_includes _ _ _ _ _ _ Eloop s Hin Hus).
  - intros s rest acc w0 Hf Hus.
    destruct (analyzeSymbols_push tfs s rest acc w0 Hf Hus)
      as (m & w1 & Hne & _ & Heq).
    by exists m, w1.
  - intros s rest acc w0 Hf Hall.
    destruct (analyzeTimeframes_returns s tfs ∅ w0 Hf) as [w1 Hret].
    exists w1. cbn [analyzeSymbols]. unfold bind at 1. rewrite Hret.
    rewrite foldl_record_empty by done.
    rewrite decide_True; [done | by rewrite map_size_empty].
Qed.


End AnalyzeFacts.

Lemma analyze_average_witness :
  exists r,
    demo_analyze ["15m"; "D"; "__proto__"]%string [Ticker "OK" (Fin 9)] tt
    = (Returns r, tt)
    /\ forall e, e ∈ symbols r ->
         timeframes e <> ∅
         /\ (is_Some (timeframes e !! "15m"%string)
             /\ timeframes e !! "__proto__"%string = None).
Proof.
  destruct (demo_analyze ["15m"; "D"; "__proto__"]%string
              [Ticker "OK" (Fin 9)] tt)
    as [[|r] []] eqn:E; [vm_compute in E; discriminate E|].
  exists r. split; [reflexivity|]. intros e He.
  destruct (analyze_average (fun _ => []) (fun _ => []) demo_get
              (fun _ w => w) ["15m"; "D"; "__proto__"]%string (Fin 50) None
              [Ticker "OK" (Fin 9)] tt tt r E)
    as [(analyzed & Hr & Hsub & Hall & _) _].
  destruct (Hall e (Hsub e He)) as (H1 & _ & _). split; [exact H1|].
  revert He. unfold demo_analyze in E. vm_compute in E.
  injection E as <-. intros He.
  apply list_elem_of_singleton in He. subst e. vm_compute.
  split; [by eexists | reflexivity].
Defined.

(** C3 at a request with [timeframes=15m,__proto__], for one candidate
    whose two requests both return candles.  Both units produce a result:
    the two analyses are computed and stored, with the total scores 0 and
    27.  But [tfResults['__proto__'] = analysis] adds no key to the object
    literal: the response holds the symbol with the one timeframe 15m and
    the average 0, the score of 15m alone, where the mean over the
    timeframes that produced a result is 13.5. *)
Theorem proto_timeframe_left_out :
  exists e a1 a2,
    analyze (fun _ => []) (fun _ => []) proto_get log_analysis
      ["15m"; "__proto__"]%string (Fin 50) None [Ticker "OK" (Fin 9)] []
    = (Returns (Response [e] 1), [a1; a2])
    /\ a_timeframe a1 = "15m"%string /\ a_timeframe a2 = "__proto__"%string
    /\ num_eq (total_score (score a1)) (Fin 0)
    /\ num_eq (total_score (score a2)) (Fin 27)
    /\ timeframes e !! "15m"%string = Some a1
    /\ timeframes e !! "__proto__"%string = None
    /\ size (timeframes e) = 1%nat
    /\ num_eq (avg_score e) (Fin 0)
    /\ num_eq (mean [total_score (score a1); total_score (score a2)])
              (Fin 13.5).
Proof.
  eexists _, _, _. split; [vm_compute; reflexivity|].
  repeat split; vm_compute; reflexivity.
Qed.



(** ** Sums of finite values *)

Lemma Qsum_app (l k : list Q) : Qsum (l ++ k) == Qsum l + Qsum k.
Proof.
  induction l as [|x l IH]; [unfold Qsum; simpl; lra|].
  change (x + Qsum (l ++ k) == x + Qsum l + Qsum k). rewrite IH. lra.
Qed.

Lemma idx_lookup (values : list number) (i : nat) (v : number) :
  values !! i = Some v -> idx values (Z.of_nat i) = v.
Proof.
  intros H. unfold idx. destruct (Z.ltb_spec (Z.of_nat i) 0); [lia|].
  by rewrite Nat2Z.id, H.
Qed.

Lemma prefix_sum_S (values : list number) (n : nat) :
  (n < length values)%nat ->
  prefix_sum values (S n)
  == prefix_sum values n + qval (idx values (Z.of_nat n)).
Proof.
  intros Hn. destruct (lookup_lt_is_Some_2 values n Hn) as [v Hv].
  unfold prefix_sum. rewrite (take_S_r _ _ _ Hv), map_app, Qsum_app.
  rewrite (idx_lookup _ _ _ Hv).
  change (Qsum (map qval [v])) with (qval v + 0). lra.
Qed.

Lemma Qsum_bounds (lo hi : Q) (l : list Q) :
  Forall (fun q => lo <= q <= hi) l ->
  inject_Z (Z.of_nat (length l)) * lo <= Qsum l
  /\ Qsum l <= inject_Z (Z.of_nat (length l)) * hi.
Proof.
  induction 1 as [|x l Hx Hl IH].
  - change (inject_Z (Z.of_nat (length (@nil Q)))) with 0.
    change (Qsum []) with 0. lra.
  - change (Qsum (x :: l)) with (x + Qsum l).
    cbn [length]. rewrite Nat2Z.inj_succ. unfold Z.succ.
    rewrite inject_Z_plus. change (inject_Z 1) with 1. lra.
Qed.

Lemma within_finite lo hi a : within lo hi a -> finite a.
Proof. by destruct a. Qed.

(** ** calcEMA, cell by cell *)

Lemma sum_first_finite values m :
  Forall finite values ->
  forall a s, (a + m <= length values)%nat ->
  exists s',
    sum_first values (seq a m) (Fin s) = Fin s'
    /\ s' == s + (prefix_sum values (a + m) - prefix_sum values a).
Proof.
  intros Hall. induction m as [|m IH]; intros a s Ham; cbn [seq sum_first].
  - exists s. split; [done|]. replace (a + 0)%nat with a by lia. lra.
  - destruct (idx_finite values a Hall ltac:(lia)) as [v Hv]. rewrite Hv.
    cbn [add].
    destruct (IH (S a) (s + v) ltac:(lia)) as (s' & -> & Hs').
    exists s'. split; [done|].
    rewrite Hs', (prefix_sum_S values a) by lia. rewrite Hv. cbn [qval].
    replace (S a + m)%nat with (a + S m)%nat by lia. lra.
Qed.

Lemma ema_seed_mean values period :
  (0 < period <= length values)%nat -> Forall finite values ->
  exists q,
    ema_from values period (ema_k period) 0 = Fin q
    /\ q == Qsum (map qval (take period values))
            / inject_Z (Z.of_nat period).
Proof.
  intros Hp Hall. cbn [ema_from]. unfold ema_next.
  destruct (Z.eqb_spec (Z.of_nat (period - 1)) (Z.of_nat period - 1)); [|lia].
  destruct (sum_first_finite values period Hall 0 0 ltac:(lia))
    as (s & -> & Hs).
  rewrite div_of_nat by lia. eexists. split; [done|].
  rewrite Hs. unfold prefix_sum at 2. cbn [take map].
  change (Qsum []) with 0. unfold prefix_sum. cbn [Nat.add].
  assert (0 + (Qsum (map qval (take period values)) - 0)
          == Qsum (map qval (take period values))) as -> by lra.
  reflexivity.
Qed.



(** ** calcMACDHist, where it is defined *)

(** X5.
    calcMACDHist (part_000, 792-799).  The histogram has one cell per
    value, and the cell [i] is not null exactly when [i] is an index of the
    series that has reached [fast - 1], [slow - 1] and [signal - 1]: with
    12, 26 and 9 the histogram starts at index 25. *)
Theorem calcMACDHist_defined (values : list number) (fast slow signal i : nat) :
  length (calcMACDHist values fast slow signal) = length values
  /\ (is_Some (cell (calcMACDHist values fast slow signal) i)
      <-> (i < length values)%nat
          /\ (Z.of_nat fast - 1 <= Z.of_nat i)%Z
          /\ (Z.of_nat slow - 1 <= Z.of_nat i)%Z
          /\ (Z.of_nat signal - 1 <= Z.of_nat i)%Z).
Proof.
  split.
  { unfold calcMACDHist. by rewrite length_diff_cells, length_macdLine. }
  unfold calcMACDHist. rewrite cell_diff_cells, length_macdLine.
  fold (signalLine values fast slow signal).
  assert (is_Some (cell (signalLine values fast slow signal) i)
          <-> (i < length values)%nat
              /\ (Z.of_nat signal - 1 <= Z.of_nat i)%Z) as Hsig.
  { unfold signalLine. rewrite calcEMA_defined.
    unfold macdForSignal. by rewrite length_map, length_macdLine. }
  assert (is_Some (cell (macdLine values fast slow) i)
          <-> (i < length values)%nat
              /\ (Z.of_nat fast - 1 <= Z.of_nat i)%Z
              /\ (Z.of_nat slow - 1 <= Z.of_nat i)%Z) as Hmacd.
  { rewrite macdLine_cell.
    pose proof (calcEMA_defined values fast i) as Hf.
    pose proof (calcEMA_defined values slow i) as Hs.
    destruct (cell (calcEMA values fast) i) as [a|];
      destruct (cell (calcEMA values slow) i) as [b|].
    - split; [intros _ | by eexists].
      destruct (proj1 Hf ltac:(by eexists)), (proj1 Hs ltac:(by eexists)).
      done.
    - split; [by intros [? [=]]|]. intros (H1 & H2 & H3).
      apply Hs. done.
    - split; [by intros [? [=]]|]. intros (H1 & H2 & H3).
      apply Hf. done.
    - split; [by intros [? [=]]|]. intros (H1 & H2 & H3).
      apply Hf. done. }
  case_decide as Hi.
  - destruct (cell (macdLine values fast slow) i) as [m|];
      destruct (cell (signalLine values fast slow signal) i) as [s|].
    + split; [intros _ | by eexists].
      destruct (proj1 Hmacd ltac:(by eexists)) as (_ & ? & ?).
      destruct (proj1 Hsig ltac:(by eexists)) as (_ & ?). done.
    + split; [by intros [? [=]]|]. intros (H1 & H2 & H3 & H4).
      apply Hsig. done.
    + split; [by intros [? [=]]|]. intros (H1 & H2 & H3 & H4).
      apply Hmacd. done.
    + split; [by intros [? [=]]|]. intros (H1 & H2 & H3 & H4).
      apply Hmacd. done.
  - split; [by intros [? [=]] | lia].
Qed.

(** ** calcRSI on monotone and on short series *)

Lemma rsi_seed_no_loss values ixs : forall gain loss,
  steps (fun d => 0 <= d) values ->
  Forall (fun i => 1 <= i < length values)%nat ixs -> zero loss ->
  zero (snd (rsi_seed values ixs gain loss)).
Proof.
  induction ixs as [|i ixs IH]; intros gain loss Hst Hix Hl;
    cbn [rsi_seed]; [done|].
  inversion Hix as [|? ? Hi Hrest]; subst.
  destruct (Hst i Hi) as (d & -> & Hd).
  unfold gt. cbn [lt].
  destruct (Qltb 0 d) eqn:E; [by apply IH|].
  apply Qltb_false in E. apply IH; [done | done |].
  destruct loss as [l| |]; try done. cbn in *. lra.
Qed.

Lemma rsi_avgs_no_loss values period n :
  steps (fun d => 0 <= d) values ->
  (0 < period)%nat -> (period + n < length values)%nat ->
  zero (snd (rsi_avgs values period n)).
Proof.
  intros Hst Hp. pose proof (of_nat_pos period Hp) as Hpos.
  induction n as [|n IH]; intros Hn.
  - cbn [rsi_avgs]. unfold rsi_init.
    pose proof (rsi_seed_no_loss values (seq 1 period) (Fin 0) (Fin 0) Hst)
      as H.
    destruct (rsi_seed values (seq 1 period) (Fin 0) (Fin 0)) as [g l].
    cbn [snd] in *.
    assert (zero l) as Hl.
    { apply H; [|cbn; lra]. apply Forall_seq. intros; lia. }
    destruct l as [l| |]; try done. rewrite div_of_nat by done.
    cbn in *. rewrite Hl. field. lra.
  - cbn [rsi_avgs]. specialize (IH ltac:(lia)).
    destruct (rsi_avgs values period n) as [g l].
    unfold rsi_step. cbn [fst snd] in *.
    destruct (Hst (period + S n)%nat ltac:(lia)) as (d & -> & Hd).
    cbn [lt].
    assert (Qltb d 0 = false) as -> by (by apply Qltb_false).
    destruct l as [l| |]; try done.
    change (of_nat period - Fin 1)%js
      with (Fin (inject_Z (Z.of_nat period) - 1)).
    cbn [mul add]. rewrite div_of_nat by done.
    cbn in *. rewrite IH. field. lra.
Qed.

(** X7.
    calcRSI (part_000, 754-773).  On a series longer than the period that
    never falls (every step is a finite difference of at least zero) every
    RSI value that is not null is exactly 100. *)
Theorem calcRSI_no_losses (values : list number) (period i : nat)
    (v : number) :
  (0 < period < length values)%nat ->
  steps (fun d => 0 <= d) values ->
  cell (calcRSI values period) i = Some v ->
  v = Fin 100.
Proof.
  intros Hp Hst. rewrite calcRSI_cell. case_decide as Hi; [|done].
  intros [= <-].
  pose proof (rsi_avgs_no_loss values period (i - period) Hst) as Hz.
  unfold rsi_value.
  rewrite zero_strict_eq; [done|]. apply Hz; lia.
Qed.

Lemma calcRSI_no_losses_witness :
  cell (calcRSI [Fin 1; Fin 2; Fin 2; Fin 5] 2) 3 = Some (Fin 100).
Proof.
  destruct (cell (calcRSI [Fin 1; Fin 2; Fin 2; Fin 5] 2) 3) as [v|] eqn:E;
    [|vm_compute in E; discriminate E].
  f_equal.
  apply (calcRSI_no_losses [Fin 1; Fin 2; Fin 2; Fin 5] 2 3 v);
    [cbn; lia | | exact E].
  intros i Hi. cbn in Hi.
  destruct i as [|[|[|[|i]]]]; try lia;
    (eexists; split; [reflexivity | vm_compute; discriminate]).
Defined.

Lemma rsi_seed_all_losses values ixs : forall loss,
  steps (fun d => d < 0) values ->
  Forall (fun i => 1 <= i < length values)%nat ixs -> nonneg loss ->
  fst (rsi_seed values ixs (Fin 0) loss) = Fin 0
  /\ nonneg (snd (rsi_seed values ixs (Fin 0) loss))
  /\ (ixs <> [] -> positive (snd (rsi_seed values ixs (Fin 0) loss))).
Proof.
  induction ixs as [|i ixs IH]; intros loss Hst Hix Hl; cbn [rsi_seed];
    [done|].
  inversion Hix as [|? ? Hi Hrest]; subst.
  destruct (Hst i Hi) as (d & -> & Hd).
  unfold gt. cbn [lt].
  assert (Qltb 0 d = false) as -> by (apply Qltb_false; lra).
  destruct loss as [l| |]; try done. cbn [sub nonneg] in *.
  destruct (IH (Fin (l - d)) Hst Hrest) as (Hg & Hn & Hpos);
    [cbn; lra|].
  split; [done|]. split; [done|]. intros _.
  destruct ixs as [|j ixs]; [cbn; lra|]. by apply Hpos.
Qed.

Lemma rsi_avgs_all_losses values period n :
  steps (fun d => d < 0) values ->
  (0 < period)%nat -> (period + n < length values)%nat ->
  zero (fst (rsi_avgs values period n))
  /\ positive (snd (rsi_avgs values period n)).
Proof.
  intros Hst Hp. pose proof (of_nat_pos period Hp) as Hpos.
  pose proof (of_nat_ge1 period Hp) as Hge1.
  induction n as [|n IH]; intros Hn.
  - cbn [rsi_avgs]. unfold rsi_init.
    destruct (rsi_seed_all_losses values (seq 1 period) (Fin 0) Hst)
      as (Hg & _ & Hl); [apply Forall_seq; intros; lia | cbn; lra |].
    specialize (Hl ltac:(by destruct period; [lia|])).
    destruct (rsi_seed values (seq 1 period) (Fin 0) (Fin 0)) as [g l].
    cbn [fst snd] in *. subst g.
    destruct l as [l| |]; try done. rewrite !div_of_nat by done.
    cbn in *. split; [field; lra|]. apply Qlt_shift_div_l; lra.
  - cbn [rsi_avgs]. destruct (IH ltac:(lia)) as [IHg IHl].
    destruct (rsi_avgs values period n) as [g l].
    unfold rsi_step. cbn [fst snd] in *.
    destruct (Hst (period + S n)%nat ltac:(lia)) as (d & -> & Hd).
    unfold gt. cbn [lt neg].
    assert (Qltb 0 d = false) as -> by (apply Qltb_false; lra).
    assert (Qltb d 0 = true) as -> by (by apply Qltb_true).
    destruct g as [g| |]; try done. destruct l as [l| |]; try done.
    change (of_nat period - Fin 1)%js
      with (Fin (inject_Z (Z.of_nat period) - 1)).
    cbn [mul add]. rewrite !div_of_nat by done.
    cbn in *. split.
    + rewrite IHg. field. lra.
    + apply Qlt_shift_div_l; [done|].
      assert (0 <= l * (inject_Z (Z.of_nat period) - 1))
        by (apply Qmult_le_0_compat; lra).
      lra.
Qed.

(** X8.
    calcRSI (part_000, 754-773).  On a series longer than the period that
    falls at every step every RSI value that is not null is zero. *)
Theorem calcRSI_all_losses (values : list number) (period i : nat)
    (v : number) :
  (0 < period < length values)%nat ->
  steps (fun d => d < 0) values ->
  cell (calcRSI values period) i = Some v ->
  within 0 0 v.
Proof.
  intros Hp Hst. rewrite calcRSI_cell. case_decide as Hi; [|done].
  intros [= <-].
  destruct (rsi_avgs_all_losses values period (i - period) Hst) as [Hg Hl];
    [lia | lia |].
  destruct (rsi_avgs values period (i - period)) as [[g| |] [l| |]];
    try done.
  cbn [fst snd zero positive] in *. unfold rsi_value. cbn [strict_eq].
  assert (Qeq_bool l 0 = false) as ->.
  { apply Qzero_false. lra. }
  cbn [div]. assert (Qzero l = false) as -> by (apply Qzero_false; lra).
  assert (g / l == 0) as Hgl by (rewrite Hg; field; lra).
  cbn [add div].
  assert (Qzero (1 + g / l) = false) as ->
    by (apply Qzero_false; rewrite Hgl; lra).
  cbn [sub within].
  assert (100 - 100 / (1 + g / l) == 0) as ->
    by (rewrite Hgl; field).
  lra.
Qed.

Lemma calcRSI_all_losses_witness :
  exists v, cell (calcRSI [Fin 9; Fin 7; Fin 6; Fin 2] 2) 3 = Some v
            /\ within 0 0 v.
Proof.
  destruct (cell (calcRSI [Fin 9; Fin 7; Fin 6; Fin 2] 2) 3) as [v|] eqn:E;
    [|vm_compute in E; discriminate E].
  exists v. split; [reflexivity|].
  apply (calcRSI_all_losses [Fin 9; Fin 7; Fin 6; Fin 2] 2 3 v);
    [cbn; lia | | exact E].
  intros i Hi. cbn in Hi.
  destruct i as [|[|[|[|i]]]]; try lia;
    (eexists; split; [reflexivity | vm_compute; reflexivity]).
Defined.

Lemma length_array_set_lt (out : cells) (i : nat) (v : number) :
  (i < length out)%nat -> length (array_set out i v) = length out.
Proof.
  intros Hi. unfold array_set. rewrite decide_True by done.
  apply length_insert.
Qed.

Lemma length_rsi_loop values period ixs : forall avgs (out : cells),
  Forall (fun i => i < length out)%nat ixs ->
  length (rsi_loop values period ixs avgs out) = length out.
Proof.
  induction ixs as [|i ixs IH]; intros avgs out Hix; cbn [rsi_loop]; [done|].
  inversion Hix as [|? ? Hi Hrest]; subst.
  rewrite IH; rewrite length_array_set_lt by done; done.
Qed.

(** X9.
    calcRSI (part_000, 754-773), the array it returns for a positive
    period.  A series of at most [period] values gives [period] nulls
    followed by one NaN: the write to [out[period]] lengthens the array and
    the value is NaN.  A longer series gives one cell per value, null before
    index [period] and a number from there on. *)
Theorem calcRSI_shape (values : list number) (period : nat) :
  (0 < period)%nat ->
  ((length values <= period)%nat ->
   calcRSI values period = replicate period None ++ [Some NaN])
  /\ ((period < length values)%nat ->
      length (calcRSI values period) = length values
      /\ forall i, is_Some (cell (calcRSI values period) i)
                   <-> (period <= i < length values)%nat).
Proof.
  intros Hp. split.
  - intros Hshort. unfold calcRSI.
    replace (length values - (period + 1))%nat with 0%nat by lia.
    cbn [seq rsi_loop]. rewrite rsi_init_short, rsi_value_NaN by done.
    unfold array_set. rewrite length_replicate.
    rewrite decide_False by lia.
    rewrite app_assoc, <- replicate_add. do 3 f_equal. lia.
  - intros Hlong. split.
    + unfold calcRSI. rewrite length_rsi_loop.
      * rewrite length_array_set_lt; rewrite length_replicate; [done | lia].
      * rewrite length_array_set_lt, length_replicate
          by (rewrite length_replicate; lia).
        apply Forall_seq. intros j Hj. lia.
    + intros i. rewrite calcRSI_cell. case_decide as Hi.
      * split; [lia | by eexists].
      * split; [by intros [? [=]] | lia].
Qed.

Lemma calcRSI_shape_witness :
  calcRSI [Fin 1; Fin 2] 3 = replicate 3 None ++ [Some NaN].
Proof.
  apply (proj1 (calcRSI_shape [Fin 1; Fin 2] 3 ltac:(lia))). cbn. lia.
Defined.

(** ** calcSMA and the technical rating *)

Lemma sma_loop_defined values period m : forall a sum out j,
  ((a <= j < a + m)%nat -> (Z.of_nat period - 1 <= Z.of_nat j)%Z ->
   is_Some (cell (sma_loop values period (seq a m) sum out) j))
  /\ (~ ((a <= j < a + m)%nat /\ (Z.of_nat period - 1 <= Z.of_nat j)%Z) ->
      cell (sma_loop values period (seq a m) sum out) j = cell out j).
Proof.
  induction m as [|m IH]; intros a sum out j; cbn [seq sma_loop].
  - split; [lia | done].
  - set (sum2 := if decide (period <= a)%nat then _ else _).
    set (out' := if (Z.of_nat period - 1 <=? Z.of_nat a)%Z then _ else _).
    destruct (IH (S a) sum2 out' j) as [IH1 IH2]. split.
    + intros Hj Hp. destruct (decide (j = a)) as [->|Hne].
      * rewrite IH2 by lia. unfold out'.
        destruct (Z.leb_spec (Z.of_nat period - 1) (Z.of_nat a)); [|lia].
        rewrite cell_array_set_eq. by eexists.
      * apply IH1; lia.
    + intros Hn. rewrite IH2 by lia. unfold out'.
      destruct (Z.leb_spec (Z.of_nat period - 1) (Z.of_nat a)); [|done].
      apply cell_array_set_ne. lia.
Qed.

Lemma calcSMA_defined values period j :
  is_Some (cell (calcSMA values period) j)
  <-> (j < length values)%nat /\ (Z.of_nat period - 1 <= Z.of_nat j)%Z.
Proof.
  unfold calcSMA.
  destruct (sma_loop_defined values period (length values) 0 (Fin 0)
              (replicate (length values) None) j) as [H1 H2].
  split.
  - intros Hs.
    destruct (decide ((j < length values)%nat
                      /\ (Z.of_nat period - 1 <= Z.of_nat j)%Z)) as [|Hn];
      [done|].
    rewrite H2, cell_replicate_None in Hs by lia.
    by destruct Hs.
  - intros [Hj Hp]. apply H1; [lia | done].
Qed.

Lemma length_sma_loop values period ixs : forall sum (out : cells),
  Forall (fun i => i < length out)%nat ixs ->
  length (sma_loop values period ixs sum out) = length out.
Proof.
  induction ixs as [|i ixs IH]; intros sum out Hix; cbn [sma_loop]; [done|].
  inversion Hix as [|? ? Hi Hrest]; subst.
  destruct (_ <=? _)%Z; [|by apply IH].
  rewrite IH; rewrite length_array_set_lt by done; done.
Qed.

(** X1.
    calcSMA (part_000, 743-752).  The result has one cell per value, and
    the cell [i] is not null exactly when [i] is an index of the series that
    has reached [period - 1]: the average is undefined before the first
    full window. *)
Theorem calcSMA_shape (values : list number) (period i : nat) :
  length (calcSMA values period) = length values
  /\ (is_Some (cell (calcSMA values period) i)
      <-> (i < length values)%nat
          /\ (Z.of_nat period - 1 <= Z.of_nat i)%Z).
Proof.
  split; [|apply calcSMA_defined].
  unfold calcSMA. rewrite length_sma_loop; rewrite length_replicate; [done|].
  apply Forall_seq. intros j Hj. lia.
Qed.

Lemma calcMACDHist_cell_defined values fast slow signal i :
  is_Some (cell (calcMACDHist values fast slow signal) i) ->
  (i < length values)%nat /\ (Z.of_nat slow - 1 <= Z.of_nat i)%Z.
Proof.
  unfold calcMACDHist. rewrite cell_diff_cells, length_macdLine.
  case_decide as Hi; [|by intros [? [=]]].
  rewrite macdLine_cell.
  pose proof (calcEMA_defined values slow i) as Hs.
  destruct (cell (calcEMA values fast) i); [|by intros [? [=]]].
  destruct (cell (calcEMA values slow) i); [|by intros [? [=]]].
  intros _. split; [done|]. apply Hs. by eexists.
Qed.

Lemma lt_irrefl (a : number) : lt a a = false.
Proof.
  destruct a as [q|s|]; cbn; [|by destruct s|done].
  apply Qltb_false. lra.
Qed.

(** X10.
    The Technical Ratings badge of applyOverlays (part_000, 634-636 and
    714-734).  With at most 14 closes there is no RSI and no histogram at
    the last index, the fallbacks 50 and 0 are read, and the badge shows
    Neutral whatever the prices are. *)
Theorem techRating_short (lastCloses : list number) :
  (length lastCloses <= 14)%nat -> techRating lastCloses = Neutral.
Proof.
  intros Hlen. unfold techRating.
  set (last := (Z.of_nat (length lastCloses) - 1)%Z).
  assert (cell_or (calcRSI lastCloses 14) last (Fin 50) = Fin 50) as ->.
  { unfold cell_or. destruct (last <? 0)%Z; [done|].
    rewrite calcRSI_cell. rewrite decide_False; [done | lia]. }
  assert (cell_or (calcMACDHist lastCloses 12 26 9) last (Fin 0) = Fin 0)
    as ->.
  { unfold cell_or. destruct (last <? 0)%Z; [done|].
    destruct (cell (calcMACDHist lastCloses 12 26 9) (Z.to_nat last))
      eqn:E; [|done].
    destruct (calcMACDHist_cell_defined lastCloses 12 26 9 (Z.to_nat last));
      [by eexists | lia]. }
  assert (cell_or (calcSMA lastCloses 20) last (idx lastCloses last)
          = idx lastCloses last) as ->.
  { unfold cell_or. destruct (last <? 0)%Z; [done|].
    destruct (cell (calcSMA lastCloses 20) (Z.to_nat last)) eqn:E; [|done].
    destruct (proj1 (calcSMA_defined lastCloses 20 (Z.to_nat last)));
      [by eexists | lia]. }
  unfold gt. by rewrite lt_irrefl.
Qed.

Lemma techRating_short_witness :
  techRating [Fin 3; Fin 9; Fin 1] = Neutral.
Proof. apply techRating_short. cbn. lia. Defined.

Lemma calcRSI_cell_falling (values : list number) (period i : nat)
    (v : number) :
  (0 < period < length values)%nat ->
  steps (fun d => d < 0) values ->
  cell (calcRSI values period) i = Some v ->
  within 0 0 v.
Proof.
  intros Hp Hst. rewrite calcRSI_cell. case_decide as Hi; [|done].
  intros [= <-].
  destruct (rsi_avgs_all_losses values period (i - period) Hst) as [Hg Hl];
    [lia | lia |].
  destruct (rsi_avgs values period (i - period)) as [[g| |] [l| |]];
    try done.
  cbn [fst snd zero positive] in *. unfold rsi_value. cbn [strict_eq].
  assert (Qeq_bool l 0 = false) as ->.
  { apply Qzero_false. lra. }
  cbn [div]. assert (Qzero l = false) as -> by (apply Qzero_false; lra).
  assert (g / l == 0) as Hgl by (rewrite Hg; field; lra).
  cbn [add div].
  assert (Qzero (1 + g / l) = false) as ->
    by (apply Qzero_false; rewrite Hgl; lra).
  cbn [sub within].
  assert (100 - 100 / (1 + g / l) == 0) as ->
    by (rewrite Hgl; field).
  lra.
Qed.

(** X11.
    The Technical Ratings badge of applyOverlays (part_000, 634-636 and
    714-734).  With 15 to 25 closes there is an RSI but no histogram at the
    last index, and the badge follows the RSI alone, against the move: a
    series that never falls has RSI 100 and is rated Sell, a series that
    falls at every step has RSI 0 and is rated Buy. *)
Theorem techRating_before_histogram (lastCloses : list number) :
  (15 <= length lastCloses <= 25)%nat ->
  (steps (fun d => 0 <= d) lastCloses -> techRating lastCloses = Sell)
  /\ (steps (fun d => d < 0) lastCloses -> techRating lastCloses = Buy).
Proof.
  intros Hlen. unfold techRating.
  set (last := (Z.of_nat (length lastCloses) - 1)%Z).
  assert ((last <? 0)%Z = false) as Hlast by (apply Z.ltb_ge; lia).
  assert (Z.to_nat last = (length lastCloses - 1)%nat) as Hnat by lia.
  assert (cell_or (calcMACDHist lastCloses 12 26 9) last (Fin 0) = Fin 0)
    as ->.
  { unfold cell_or. rewrite Hlast.
    destruct (cell (calcMACDHist lastCloses 12 26 9) (Z.to_nat last))
      eqn:E; [|done].
    destruct (calcMACDHist_cell_defined lastCloses 12 26 9 (Z.to_nat last));
      [by eexists | lia]. }
  split; intros Hst.
  - assert (cell_or (calcRSI lastCloses 14) last (Fin 50) = Fin 100) as ->.
    { unfold cell_or. rewrite Hlast, Hnat, calcRSI_cell.
      rewrite decide_True by lia. cbn [default from_option id].
      unfold rsi_value. rewrite zero_strict_eq; [done|].
      apply rsi_avgs_no_loss; [done | lia | lia]. }
    done.
  - destruct (cell (calcRSI lastCloses 14) (length lastCloses - 1))
      as [v|] eqn:E.
    + pose proof (calcRSI_cell_falling lastCloses 14 _ v ltac:(lia) Hst E)
        as Hv.
      assert (cell_or (calcRSI lastCloses 14) last (Fin 50) = v) as ->.
      { unfold cell_or. by rewrite Hlast, Hnat, E. }
      destruct v as [q| |]; try done. cbn [within] in Hv.
      unfold gt. cbn [lt].
      assert (Qltb q 35 = true) as -> by (apply Qltb_true; lra).
      assert (Qltb 65 q = false) as -> by (apply Qltb_false; lra).
      done.
    + rewrite calcRSI_cell in E. rewrite decide_True in E by lia. done.
Qed.

Lemma techRating_before_histogram_witness :
  techRating rising_closes = Sell.
Proof.
  assert (15 <= length rising_closes <= 25)%nat as Hlen by (cbn; lia).
  apply (proj1 (techRating_before_histogram rising_closes Hlen)).
  intros i Hi. cbn in Hi.
  do 15 (destruct i as [|i]; [first [lia | eexists; split;
            [reflexivity | vm_compute; discriminate]]|]).
  lia.
Defined.

(** ** The UT alert markers *)

Lemma ut_alert_late (lastCloses : list number) (i : nat) :
  (1 <= i)%nat -> ut_alert lastCloses i = true ->
  (26 <= i < length lastCloses)%nat.
Proof.
  intros Hi. unfold ut_alert, macdCross.
  destruct (cell (calcMACDHist lastCloses 12 26 9) i) as [h|] eqn:Eh;
    [|done].
  destruct (cell (calcMACDHist lastCloses 12 26 9) (i - 1)) as [ph|] eqn:Ep;
    [|done].
  intros _.
  destruct (calcMACDHist_cell_defined lastCloses 12 26 9 i); [by eexists|].
  destruct (calcMACDHist_cell_defined lastCloses 12 26 9 (i - 1));
    [by eexists|].
  lia.
Qed.

(** X12.
    The UT alert markers of applyOverlays (part_000, 639-655).  Every
    marker sits at an index of the series from 26 on, the first index at
    which both the histogram and its predecessor exist, and carries the
    close at that index. *)
Theorem utAlerts_after_warmup (lastCloses : list number) (x : nat)
    (y : number) :
  (x, y) ∈ utAlerts lastCloses ->
  (26 <= x < length lastCloses)%nat /\ y = idx lastCloses (Z.of_nat x).
Proof.
  unfold utAlerts. intros Hin. apply list_elem_of_fmap in Hin as (i & [= -> ->] & Hin).
  apply list_elem_of_filter in Hin as [Hal Hin]. apply elem_of_seq in Hin.
  split; [|done]. apply ut_alert_late; [lia | done].
Qed.

Lemma utAlerts_after_warmup_witness :
  (28%nat, Fin 9) ∈ utAlerts ut_closes
  /\ (26 <= 28 < length ut_closes)%nat
  /\ Fin 9 = idx ut_closes (Z.of_nat 28).
Proof.
  assert ((28%nat, Fin 9) ∈ utAlerts ut_closes) as Hin.
  { replace (utAlerts ut_closes) with [(28%nat, Fin 9)]
      by (vm_compute; reflexivity).
    apply list_elem_of_here. }
  split; [exact Hin|].
  apply (utAlerts_after_warmup ut_closes 28 (Fin 9) Hin).
Defined.



(** ** calcVolumeProfile: where the POC price lies *)

Lemma poc_scan_range (buckets : list number) (ixs : list nat) : forall p,
  poc_scan buckets ixs p = p \/ poc_scan buckets ixs p ∈ ixs.
Proof.
  induction ixs as [|i ixs IH]; intros p; cbn [poc_scan]; [by left|].
  destruct (gt _ _).
  - right. destruct (IH i) as [-> | H]; apply elem_of_cons; auto.
  - destruct (IH p) as [-> | H]; [by left|]. right. apply elem_of_cons; auto.
Qed.

Lemma poc_scan_stays (buckets : list number) (ixs : list nat) (p : nat) :
  Forall (fun i => gt (default NaN (buckets !! i))
                      (default NaN (buckets !! p)) = false) ixs ->
  poc_scan buckets ixs p = p.
Proof.
  induction 1 as [|i ixs Hi Hrest IH]; cbn [poc_scan]; [done|].
  by rewrite Hi.
Qed.

Lemma fold_add_nonneg (l : list number) : forall q,
  Forall nonneg l -> 0 <= q ->
  exists r, fold_left add l (Fin q) = Fin r /\ 0 <= r.
Proof.
  induction l as [|a l IH]; intros q Hall Hq; [by exists q|].
  inversion Hall as [|? ? Ha Hl]; subst.
  destruct a as [a| |]; try done. cbn [fold_left add].
  apply IH; [done|]. cbn in Ha. lra.
Qed.

Lemma credited_nonneg bins mn step closes volumes j ixs :
  Forall nonneg volumes ->
  Forall nonneg (credited bins mn step closes volumes j ixs).
Proof.
  intros Hall. unfold credited. apply Forall_fmap, Forall_forall.
  intros i _. cbn. unfold or_else, idx.
  destruct (Z.of_nat i <? 0)%Z; [cbn; lra|].
  destruct (volumes !! Z.to_nat (Z.of_nat i)) as [v|] eqn:E; [|cbn; lra].
  rewrite Forall_lookup in Hall. specialize (Hall _ _ E).
  cbn [default from_option id]. destruct v as [q| |]; try done.
  cbn [truthy]. destruct (negb (Qzero q)); cbn; [done | lra].
Qed.

Lemma credited_flat (bins : nat) (mn : Q) closes volumes (j : nat) ixs :
  (0 < bins)%nat -> (j <> 0)%nat ->
  Forall (fun i => exists c, idx closes (Z.of_nat i) = Fin c /\ c == mn) ixs ->
  credited bins (Fin mn) (Fin 1) closes volumes j ixs = [].
Proof.
  intros Hb Hj. unfold credited.
  induction 1 as [|i ixs (c & Hc & Heq) Hrest IH]; [done|].
  rewrite filter_cons, Hc.
  rewrite bucket_index_finite by (try done; lra).
  rewrite decide_False; [exact IH|].
  intros [= <-]. apply Hj. unfold bucket_no.
  assert ((c - mn) / 1 == 0) as -> by (rewrite Heq; field).
  change (Qfloor 0) with 0%Z. lia.
Qed.

(** X14.
    calcVolumeProfile (part_000, 801-815).  For a non-empty series of
    finite closes, volumes that are not negative and at least one bucket,
    the POC price is a finite number between the lowest and the highest
    close. *)
Theorem calcVolumeProfile_in_range (closes volumes : list number)
    (bins : nat) :
  closes <> [] -> Forall finite closes -> Forall nonneg volumes ->
  (0 < bins)%nat ->
  exists p mn mx,
    calcVolumeProfile closes volumes bins = Some (Fin p)
    /\ Math_min closes = Fin mn /\ Math_max closes = Fin mx
    /\ mn <= p <= mx.
Proof.
  intros Hne Hc Hv Hb.
  destruct (Math_min_finite closes Hne Hc) as (mn & Hmn & Hmn_in & Hmn_le).
  destruct (Math_max_finite closes Hne Hc) as (mx & Hmx & Hmx_in & Hmx_le).
  assert (mn <= mx) as Hle by (by apply Hmx_le).
  destruct (vp_step_finite closes bins mn mx Hb Hmn Hmx Hle)
    as (st & Hst & Hpos & Hst1 & Hst2).
  pose proof (of_nat_pos bins Hb) as Hbpos.
  set (k := vp_pocIdx closes volumes bins).
  exists (mn + inject_Z (Z.of_nat k) * st), mn, mx.
  split.
  { unfold calcVolumeProfile. destruct closes; [done|].
    fold k. by rewrite Hmn, Hst. }
  split; [done|]. split; [done|].
  assert (k < bins)%nat as Hk.
  { unfold k, vp_pocIdx.
    destruct (poc_scan_range (vp_buckets closes volumes bins)
                (seq 1 (bins - 1)) 0) as [-> | Hin]; [lia|].
    apply elem_of_seq in Hin. lia. }
  destruct (Qeq_dec mx mn) as [Heq|Hneq].
  - assert (k = 0)%nat as ->.
    { unfold k, vp_pocIdx. apply poc_scan_stays, Forall_seq.
      intros j Hj. unfold vp_buckets. rewrite Hmn, Hst, (Hst2 Heq).
      rewrite (fill_buckets_lookup _ _ _ _ _ _ _ j (Fin 0))
        by (apply lookup_replicate_2; lia).
      rewrite (fill_buckets_lookup _ _ _ _ _ _ _ 0%nat (Fin 0))
        by (apply lookup_replicate_2; lia).
      rewrite credited_flat; [|done|lia|].
      - destruct (fold_add_nonneg
                    (credited bins (Fin mn) (Fin 1) closes volumes 0
                       (seq 0 (length closes))) 0) as (r & -> & Hr);
          [by apply credited_nonneg | lra |].
        cbn. apply Qltb_false. done.
      - apply Forall_seq. intros i Hi.
        destruct (lookup_lt_is_Some_2 closes i ltac:(lia)) as [v Hv'].
        rewrite (idx_lookup _ _ _ Hv').
        assert (v ∈ closes) as Hin by (by eapply list_elem_of_lookup_2).
        rewrite Forall_forall in Hc. specialize (Hc v Hin).
        destruct v as [c| |]; try done. exists c. split; [done|].
        specialize (Hmn_le c Hin). specialize (Hmx_le c Hin). lra. }
    change (inject_Z (Z.of_nat 0)) with 0. lra.
  - rewrite (Hst1 Hneq) in *.
    assert (inject_Z (Z.of_nat k) <= inject_Z (Z.of_nat bins) - 1) as Hkb.
    { assert (inject_Z (Z.of_nat bins) - 1 == inject_Z (Z.of_nat bins - 1))
        as -> by (unfold Z.sub; rewrite inject_Z_plus; reflexivity).
      apply inject_Z_le. lia. }
    assert (0 <= inject_Z (Z.of_nat k)) as Hk0.
    { change 0 with (inject_Z 0). apply inject_Z_le. lia. }
    set (st' := (mx - mn) / inject_Z (Z.of_nat bins)) in *.
    assert (st' * inject_Z (Z.of_nat bins) == mx - mn) as Hspan
      by (unfold st'; field; lra).
    assert (0 <= inject_Z (Z.of_nat k) * st')
      by (apply Qmult_le_0_compat; lra).
    assert (inject_Z (Z.of_nat k) * st'
            <= (inject_Z (Z.of_nat bins) - 1) * st')
      by (apply Qmult_le_compat_r; lra).
    split; lra.
Qed.

Lemma calcVolumeProfile_in_range_witness :
  exists p mn mx,
    calcVolumeProfile [Fin 1; Fin 2; Fin 6] [Fin 4; Fin 1; Fin 3] 20
    = Some (Fin p)
    /\ Math_min [Fin 1; Fin 2; Fin 6] = Fin mn
    /\ Math_max [Fin 1; Fin 2; Fin 6] = Fin mx
    /\ mn <= p <= mx.
Proof.
  apply (calcVolumeProfile_in_range [Fin 1; Fin 2; Fin 6]
           [Fin 4; Fin 1; Fin 3] 20);
    [discriminate | repeat constructor | | lia].
  repeat (constructor; [cbn; lra|]); constructor.
Defined.

Lemma fold_add_zero (l : list number) : forall q,
  Forall zero l -> q == 0 ->
  exists r, fold_left add l (Fin q) = Fin r /\ r == 0.
Proof.
  induction l as [|a l IH]; intros q Hall Hq; [by exists q|].
  inversion Hall as [|? ? Ha Hl]; subst.
  destruct a as [a| |]; try done. cbn [fold_left add].
  apply IH; [done|]. cbn in Ha. lra.
Qed.

Lemma credited_zero bins mn step closes volumes j ixs :
  Forall zero volumes ->
  Forall zero (credited bins mn step closes volumes j ixs).
Proof.
  intros Hall. unfold credited. apply Forall_fmap, Forall_forall.
  intros i _. cbn. unfold or_else, idx.
  destruct (Z.of_nat i <? 0)%Z; [cbn; lra|].
  destruct (volumes !! Z.to_nat (Z.of_nat i)) as [v|] eqn:E; [|cbn; lra].
  rewrite Forall_lookup in Hall. specialize (Hall _ _ E).
  cbn [default from_option id]. destruct v as [q| |]; try done.
  cbn [truthy]. destruct (negb (Qzero q)); cbn; [done | lra].
Qed.

(** X15.
    calcVolumeProfile (part_000, 801-815).  When no candle carries volume
    (every volume is zero; a missing one counts as zero) no bucket beats
    bucket 0, and the POC price is the lowest close. *)
Theorem calcVolumeProfile_no_volume (closes volumes : list number)
    (bins : nat) :
  closes <> [] -> Forall finite closes -> Forall zero volumes ->
  (0 < bins)%nat ->
  exists p mn,
    calcVolumeProfile closes volumes bins = Some (Fin p)
    /\ Math_min closes = Fin mn /\ p == mn.
Proof.
  intros Hne Hc Hv Hb.
  destruct (Math_min_finite closes Hne Hc) as (mn & Hmn & Hmn_in & Hmn_le).
  destruct (Math_max_finite closes Hne Hc) as (mx & Hmx & Hmx_in & Hmx_le).
  assert (mn <= mx) as Hle by (by apply Hmx_le).
  destruct (vp_step_finite closes bins mn mx Hb Hmn Hmx Hle)
    as (st & Hst & _).
  assert (vp_pocIdx closes volumes bins = 0%nat) as Hk.
  { unfold vp_pocIdx. apply poc_scan_stays, Forall_seq.
    intros j Hj. unfold vp_buckets.
    rewrite (fill_buckets_lookup _ _ _ _ _ _ _ j (Fin 0))
      by (apply lookup_replicate_2; lia).
    rewrite (fill_buckets_lookup _ _ _ _ _ _ _ 0%nat (Fin 0))
      by (apply lookup_replicate_2; lia).
    destruct (fold_add_zero
                (credited bins (Math_min closes) (vp_step closes bins)
                   closes volumes j (seq 0 (length closes))) 0)
      as (rj & -> & Hrj); [by apply credited_zero | lra |].
    destruct (fold_add_zero
                (credited bins (Math_min closes) (vp_step closes bins)
                   closes volumes 0 (seq 0 (length closes))) 0)
      as (r0 & -> & Hr0); [by apply credited_zero | lra |].
    cbn. apply Qltb_false. lra. }
  exists (mn + inject_Z (Z.of_nat 0) * st), mn.
  split.
  { unfold calcVolumeProfile. destruct closes; [done|].
    by rewrite Hk, Hmn, Hst. }
  split; [done|]. change (inject_Z (Z.of_nat 0)) with 0. lra.
Qed.

Lemma calcVolumeProfile_no_volume_witness :
  exists p mn,
    calcVolumeProfile [Fin 4; Fin 2; Fin 6] [Fin 0; Fin 0] 20 = Some (Fin p)
    /\ Math_min [Fin 4; Fin 2; Fin 6] = Fin mn /\ p == mn.
Proof.
  apply (calcVolumeProfile_no_volume [Fin 4; Fin 2; Fin 6] [Fin 0; Fin 0] 20);
    [discriminate | repeat constructor | | lia].
  repeat (constructor; [cbn; lra|]); constructor.
Defined.

(** ** mean and the classification *)

Lemma fold_add_Qsum (l : list number) : forall q,
  Forall finite l ->
  exists s, fold_left add l (Fin q) = Fin s /\ s == q + Qsum (map qval l).
Proof.
  induction l as [|a l IH]; intros q Hall.
  - exists q. split; [done|]. change (Qsum (map qval [])) with 0. lra.
  - inversion Hall as [|? ? Ha Hl]; subst.
    destruct a as [a| |]; try done. cbn [fold_left add].
    destruct (IH (q + a) Hl) as (s & -> & Hs). exists s. split; [done|].
    change (Qsum (map qval (Fin a :: l))) with (a + Qsum (map qval l)). lra.
Qed.

Lemma mean_within (l : list number) (lo hi : Q) :
  l <> [] -> Forall (within lo hi) l -> within lo hi (mean l).
Proof.
  intros Hne Hb. unfold mean.
  rewrite decide_False by (by destruct l).
  assert (Forall finite l) as Hall.
  { eapply Forall_impl; [exact Hb|]. intros a. apply within_finite. }
  destruct (fold_add_Qsum l 0 Hall) as (s & -> & Hs).
  assert (0 < length l)%nat as Hlen by (destruct l; [done | cbn; lia]).
  rewrite div_of_nat by done. cbn [within].
  assert (Forall (fun q => lo <= q <= hi) (map qval l)) as Hw.
  { apply Forall_fmap. eapply Forall_impl; [exact Hb|].
    intros [x| |]; cbn; done. }
  apply Qsum_bounds in Hw. rewrite length_map in Hw.
  pose proof (of_nat_pos (length l) Hlen) as Hpos. split.
  - apply Qle_shift_div_l; [done|]. lra.
  - apply Qle_shift_div_r; [done|]. lra.
Qed.

(** X17.
    The signal of computeIndicators (part_004, 133-137) is monotone in
    the score: when [a <= b], the signal of [b] is at least as bullish as
    the signal of [a] in the order STRONG_SELL, SELL, NEUTRAL, BUY,
    STRONG_BUY. *)
Theorem classify_monotone (a b : number) :
  le a b = true ->
  (signal_rank (classify a) <= signal_rank (classify b))%nat.
Proof.
  intros Hab. unfold classify, gt.
  destruct a as [x|s|], b as [y|t|]; try done; cbn [lt le] in *.
  - apply Qle_bool_iff in Hab.
    destruct (Qltb 20 x) eqn:A1;
      [apply Qltb_true in A1 | apply Qltb_false in A1];
    (destruct (Qltb 10 x) eqn:A2;
      [apply Qltb_true in A2 | apply Qltb_false in A2]);
    (destruct (Qle_bool x (-20)) eqn:A3;
      [apply Qle_bool_iff in A3 | apply Qle_bool_false in A3]);
    (destruct (Qltb x (-10)) eqn:A4;
      [apply Qltb_true in A4 | apply Qltb_false in A4]);
    (destruct (Qltb 20 y) eqn:B1;
      [apply Qltb_true in B1 | apply Qltb_false in B1]);
    (destruct (Qltb 10 y) eqn:B2;
      [apply Qltb_true in B2 | apply Qltb_false in B2]);
    (destruct (Qle_bool y (-20)) eqn:B3;
      [apply Qle_bool_iff in B3 | apply Qle_bool_false in B3]);
    (destruct (Qltb y (-10)) eqn:B4;
      [apply Qltb_true in B4 | apply Qltb_false in B4]);
    cbn [signal_rank]; try lia; exfalso; lra.
  - subst t. cbn. destruct (Qltb 20 x), (Qltb 10 x), (Qle_bool x (-20)),
      (Qltb x (-10)); cbn; lia.
  - destruct s; [done|]. cbn. lia.
  - destruct s, t; try done; cbn; lia.
Qed.

Lemma classify_monotone_witness :
  (signal_rank (classify (Fin (-15))) <= signal_rank (classify (Fin 12)))%nat.
Proof. apply classify_monotone. reflexivity. Defined.

(** ** computeIndicators on finite candles *)

Lemma finite_Fin (a : number) : finite a -> exists q, a = Fin q.
Proof. destruct a; try done. by eexists. Qed.

Lemma mean_finite (l : list number) : Forall finite l -> finite (mean l).
Proof.
  intros Hall. unfold mean. case_decide as Hl; [done|].
  destruct (fold_add_Qsum l 0 Hall) as (s & -> & _).
  rewrite div_of_nat; [done|]. destruct l; [done | cbn; lia].
Qed.

Lemma last_finite (l : list number) (d : Q) :
  Forall finite l ->
  finite (match last l with Some v => v | None => Fin d end).
Proof.
  intros Hall. destruct (last l) as [v|] eqn:E; [|done].
  rewrite Forall_forall in Hall. apply Hall.
  rewrite last_lookup in E. by eapply list_elem_of_lookup_2.
Qed.

Lemma or_zero_finite (x : option number) :
  finite_field x -> finite (or_zero x).
Proof.
  unfold or_zero, or_else. destruct x as [[q| |]|]; try done.
  cbn. by destruct (negb (Qzero q)).
Qed.

Lemma div_finite (a b : number) :
  finite a -> finite b -> strict_eq b (Fin 0) = false -> finite (a / b)%js.
Proof.
  destruct a as [x| |], b as [y| |]; try done. cbn. intros _ _ H.
  change (Qeq_bool y 0) with (Qzero y) in H. by rewrite H.
Qed.

Lemma price_change_finite (old new : number) :
  (finite old \/ old = NaN) -> finite new ->
  finite (if truthy old then ((new - old) / old * Fin 100)%js else Fin 0).
Proof.
  intros [Ho | ->] Hn; [|done].
  destruct old as [o| |], new as [n| |]; try done. cbn [truthy].
  destruct (Qzero o) eqn:E; [done|]. cbn. by rewrite E.
Qed.

Lemma idx_finite_in (l : list number) (i : Z) :
  Forall finite l -> (0 <= i < Z.of_nat (length l))%Z -> finite (idx l i).
Proof.
  intros Hall Hi. replace i with (Z.of_nat (Z.to_nat i)) by lia.
  destruct (idx_finite l (Z.to_nat i) Hall ltac:(lia)) as [q ->]. done.
Qed.

Lemma idx_finite_or_undefined (l : list number) (i : Z) :
  Forall finite l -> finite (idx l i) \/ idx l i = NaN.
Proof.
  intros Hall. destruct (idx_finite_or_NaN l i Hall) as [H1 H2].
  destruct (idx l i) as [q|[]|]; [by left | done | done | by right].
Qed.

(** X18.
    computeIndicators (part_004, 106-139).  On finite closes and volumes,
    with a library that returns finite RSI values and a last histogram that
    is finite when present, no division by zero and no NaN arises: ma,
    volumeMa, volume, volumeRatio, currentPrice, priceChange and totalScore
    are all finite numbers (in exact arithmetic), also for empty series,
    a zero volume average and a zero previous close. *)
Theorem computeIndicators_finite
    (RSI_calculate : list number -> list number)
    (MACD_calculate : list number -> list macd_entry)
    (closes volumes : list number) :
  Forall finite closes -> Forall finite volumes ->
  Forall finite (RSI_calculate closes) ->
  (forall m, last (MACD_calculate closes) = Some m ->
             finite_field (MACD_histogram m)) ->
  let s := computeIndicators RSI_calculate MACD_calculate closes volumes in
  finite (ma s) /\ finite (volumeMa s) /\ finite (volume s)
  /\ finite (volumeRatio s) /\ finite (currentPrice s)
  /\ finite (priceChange s) /\ finite (totalScore s).
Proof.
  intros Hc Hv Hr Hm s.
  assert (finite (ma s)) as Hma.
  { unfold s, computeIndicators. cbn [ma].
    case_decide; apply mean_finite; [|done]. by apply Forall_drop. }
  assert (finite (volumeMa s)) as Hvma.
  { unfold s, computeIndicators. cbn [volumeMa].
    case_decide; apply mean_finite; [|done]. by apply Forall_drop. }
  assert (finite (volume s)) as Hvol.
  { unfold s, computeIndicators. cbn [volume]. by apply last_finite. }
  assert (finite (volumeRatio s)) as Hratio.
  { revert Hvma Hvol. unfold s, computeIndicators.
    cbn [volumeMa volume volumeRatio]. intros Hvma Hvol.
    destruct (strict_eq _ (Fin 0)) eqn:E; [done|]. by apply div_finite. }
  assert (finite (currentPrice s)) as Hnew.
  { unfold s, computeIndicators. cbn [currentPrice].
    case_decide as Hlen; [done|]. apply idx_finite_in; [done | lia]. }
  assert (finite (priceChange s)) as Hpc.
  { revert Hnew. unfold s, computeIndicators. cbn [currentPrice priceChange].
    intros Hnew. apply price_change_finite; [|done].
    destruct (decide (2 <= length closes)%nat);
      by apply idx_finite_or_undefined. }
  repeat (split; [done|]).
  revert Hma Hnew Hpc. unfold s, computeIndicators.
  cbn [ma currentPrice priceChange totalScore].
  intros Hma Hnew Hpc.
  pose proof (last_finite (RSI_calculate closes) 50 Hr) as Hrsi.
  destruct (finite_Fin _ Hrsi) as [r ->].
  destruct (finite_Fin _ Hpc) as [pc ->].
  destruct (finite_Fin _ Hma) as [m ->].
  destruct (finite_Fin _ Hnew) as [p ->].
  assert (finite (or_zero (MACD_histogram
            match last (MACD_calculate closes) with
            | Some m0 => m0
            | None => MacdEntry (Some (Fin 0)) (Some (Fin 0)) (Some (Fin 0))
            end))) as Hh.
  { apply or_zero_finite.
    destruct (last (MACD_calculate closes)) as [m0|] eqn:E; [by apply Hm|].
    done. }
  destruct (finite_Fin _ Hh) as [h ->].
  unfold gt. cbn [lt mul sub div neg add].
  change (Qzero 30) with false.
  destruct (Qltb r 30), (Qltb 70 r), (Qltb (m * 1.02) p), (Qltb p (m * 0.98));
    cbn [mul add div sub neg];
    repeat match goal with
           | |- context [if ?b then _ else _] => destruct b
           end; done.
Qed.

Lemma computeIndicators_finite_witness :
  let s := computeIndicators (fun _ => [Fin 55])
             (fun _ => [MacdEntry (Some (Fin 2)) (Some (Fin 1)) (Some (Fin 1))])
             [Fin 0; Fin 4] [Fin 0; Fin 0] in
  finite (priceChange s) /\ finite (volumeRatio s) /\ finite (totalScore s).
Proof.
  destruct (computeIndicators_finite (fun _ => [Fin 55])
              (fun _ => [MacdEntry (Some (Fin 2)) (Some (Fin 1))
                           (Some (Fin 1))])
              [Fin 0; Fin 4] [Fin 0; Fin 0])
    as (_ & _ & _ & H4 & _ & H6 & H7).
  - repeat constructor.
  - repeat constructor.
  - repeat constructor.
  - intros m [= <-]. exact I.
  - split; [exact H6|]. split; [exact H4 | exact H7].
Defined.

(** X19.
    computeIndicators (part_004, 106-139) on closes that stay at one price
    [c >= 0] (in exact arithmetic, overflow aside): maSignal is 0 and
    priceChange is zero, and when there is at least one close the current
    price is [c]. *)
Theorem computeIndicators_flat
    (RSI_calculate : list number -> list number)
    (MACD_calculate : list number -> list macd_entry)
    (volumes : list number) (c : Q) (n : nat) :
  0 <= c ->
  let s := computeIndicators RSI_calculate MACD_calculate
             (replicate n (Fin c)) volumes in
  maSignal s = Fin 0 /\ zero (priceChange s)
  /\ ((0 < n)%nat -> currentPrice s = Fin c).
Proof.
  intros Hc s.
  assert (Forall (within c c) (replicate n (Fin c))) as Hflat.
  { apply Forall_replicate. cbn. lra. }
  assert ((0 < n)%nat -> within c c (ma s)) as Hma.
  { intros Hn. unfold s, computeIndicators. cbn [ma].
    rewrite length_replicate. case_decide.
    - apply mean_within; [|by apply Forall_drop].
      unfold slice_last. rewrite drop_replicate, length_replicate.
      destruct (n - (n - 20))%nat eqn:E; [lia | done].
    - apply mean_within; [by destruct n; [lia|] | done]. }
  assert ((0 < n)%nat -> currentPrice s = Fin c) as Hnew.
  { intros Hn. unfold s, computeIndicators. cbn [currentPrice].
    rewrite length_replicate. rewrite decide_False by lia.
    replace (Z.of_nat n - 1)%Z with (Z.of_nat (n - 1)) by lia.
    apply idx_replicate. lia. }
  destruct n as [|n].
  { split; [|split; [|lia]]; vm_compute; done. }
  specialize (Hma ltac:(lia)). specialize (Hnew ltac:(lia)).
  split; [|split; [|done]].
  - revert Hma Hnew. unfold s, computeIndicators.
    cbn [ma currentPrice maSignal]. intros Hma ->.
    match type of Hma with within _ _ ?e => destruct e as [m| |] end;
      try done.
    unfold gt. cbn [mul lt within] in *.
    assert (Qltb (m * 1.02) c = false) as -> by (apply Qltb_false; lra).
    assert (Qltb c (m * 0.98) = false) as -> by (apply Qltb_false; lra).
    done.
  - revert Hnew. unfold s, computeIndicators.
    cbn [currentPrice priceChange]. intros ->.
    rewrite length_replicate.
    assert ((if decide (2 <= S n)%nat
             then idx (replicate (S n) (Fin c)) (Z.of_nat (S n) - 2)
             else idx (replicate (S n) (Fin c)) (Z.of_nat (S n) - 1))
            = Fin c) as ->.
    { case_decide.
      - replace (Z.of_nat (S n) - 2)%Z with (Z.of_nat (S n - 2)) by lia.
        apply idx_replicate. lia.
      - replace (Z.of_nat (S n) - 1)%Z with (Z.of_nat (S n - 1)) by lia.
        apply idx_replicate. lia. }
    cbn [truthy]. destruct (Qzero c) eqn:E; cbn [negb]; [cbn; lra|].
    cbn [sub div]. rewrite E. cbn. apply Qzero_false in E. field. done.
Qed.


Lemma computeIndicators_flat_witness :
  maSignal (computeIndicators (fun _ => []) (fun _ => [])
              (replicate 3 (Fin 5)) [Fin 1; Fin 2; Fin 3]) = Fin 0.
Proof.
  apply (computeIndicators_flat (fun _ => []) (fun _ => [])
           [Fin 1; Fin 2; Fin 3] 5 3).
  lra.
Defined.

(** ** The analyze handler: size and symbols of the response *)

Lemma slice_to_sublist {A} (arr : list A) (e : number) :
  slice_to arr e `sublist_of` arr.
Proof.
  unfold slice_to. destruct e as [q|[]|]; try done.
  - destruct (_ <? 0)%Z; apply sublist_take.
  - apply sublist_nil_l.
  - apply sublist_nil_l.
Qed.

Lemma filterByScore_sublist minScore analyzed :
  filterByScore minScore analyzed `sublist_of` analyzed.
Proof.
  unfold filterByScore. destruct minScore; [apply sublist_filter | done].
Qed.

Lemma respond_sizes minScore limit analyzed :
  (total (respond minScore limit analyzed) <= length analyzed)%nat
  /\ (length (symbols (respond minScore limit analyzed))
      <= total (respond minScore limit analyzed))%nat.
Proof.
  unfold respond. cbn [symbols total].
  pose proof (Permutation_length
                (js_sort_perm byScoreDesc (filterByScore minScore analyzed)))
    as Hlen.
  split.
  - rewrite Hlen. apply sublist_length, filterByScore_sublist.
  - apply sublist_length, slice_to_sublist.
Qed.

Lemma respond_NoDup minScore limit analyzed :
  NoDup (e_symbol <$> analyzed) ->
  NoDup (e_symbol <$> symbols (respond minScore limit analyzed)).
Proof.
  intros Hnd. unfold respond. cbn [symbols].
  eapply sublist_NoDup; [|apply fmap_sublist, slice_to_sublist].
  rewrite js_sort_perm.
  eapply sublist_NoDup; [exact Hnd | apply fmap_sublist, filterByScore_sublist].
Qed.

Lemma le_not_lt (a b : number) : le b a = true -> lt a b = false.
Proof.
  destruct a as [x|[]|], b as [y|[]|]; cbn; try done.
  unfold Qltb. by intros ->.
Qed.

Lemma sort_insert_volume_sorted (x : ticker) (l : list ticker) :
  finite (volume_24h x) -> Forall (fun y => finite (volume_24h y)) l ->
  StronglySorted volume_desc l ->
  StronglySorted volume_desc
    (sort_insert (fun a b => (volume_24h b - volume_24h a)%js) x l).
Proof.
  intros Hx Hall Hs. induction Hs as [|y l Hsl IH Hy]; cbn [sort_insert].
  - by repeat constructor.
  - inversion Hall as [|? ? Hfy Hfl]; subst.
    unfold gt.
    destruct (volume_24h x) as [qx| |] eqn:Ex; try done.
    destruct (volume_24h y) as [qy| |] eqn:Ey; try done.
    cbn [sub lt].
    destruct (Qltb 0 (qy - qx)) eqn:E;
      [apply Qltb_true in E | apply Qltb_false in E].
    + constructor; [by apply IH|].
      rewrite sort_insert_perm. constructor; [|done].
      unfold volume_desc. rewrite Ex, Ey. cbn. apply Qle_bool_iff. lra.
    + constructor; [by constructor|].
      constructor.
      * unfold volume_desc. rewrite Ex, Ey. cbn. apply Qle_bool_iff. lra.
      * rewrite Forall_forall in Hy |- *. intros z Hz.
        specialize (Hy z Hz). rewrite Forall_forall in Hfl.
        specialize (Hfl z Hz). unfold volume_desc in *.
        rewrite Ex. rewrite Ey in Hy.
        destruct (volume_24h z) as [qz| |]; try done. cbn in *.
        apply Qle_bool_iff in Hy. apply Qle_bool_iff. lra.
Qed.

Lemma js_sort_volume_sorted (l : list ticker) :
  Forall (fun y => finite (volume_24h y)) l ->
  StronglySorted volume_desc
    (js_sort (fun a b => (volume_24h b - volume_24h a)%js) l).
Proof.
  induction 1 as [|x l Hx Hl IH]; [constructor|].
  cbn [js_sort foldr].
  fold (js_sort (fun a b => (volume_24h b - volume_24h a)%js) l).
  apply sort_insert_volume_sorted; [done| |done].
  by rewrite js_sort_perm.
Qed.

Lemma above_none (s : ticker) (l : list ticker) :
  Forall (volume_desc s) l -> above s l = [].
Proof.
  unfold above. induction 1 as [|t l Ht Hl IH]; [done|].
  rewrite filter_cons_False; [done|].
  unfold volume_desc in Ht. apply le_not_lt in Ht. by rewrite Ht.
Qed.

Lemma sorted_drop {A} (R : A -> A -> Prop) (l : list A) : forall i,
  StronglySorted R l -> StronglySorted R (drop i l).
Proof.
  induction l as [|x l IH]; intros [|i] Hs; try done.
  cbn [drop]. apply IH. by inversion Hs.
Qed.

Lemma above_sorted (l : list ticker) (i : nat) (s : ticker) :
  StronglySorted volume_desc l -> l !! i = Some s ->
  (length (above s l) <= i)%nat.
Proof.
  intros Hs Hi. apply (sorted_drop _ _ i) in Hs.
  rewrite <- (take_drop i l). rewrite (drop_S _ _ _ Hi) in Hs |- *.
  inversion Hs as [|? ? _ Hall]; subst.
  unfold above at 1. rewrite filter_app, filter_cons_False.
  - fold (above s (drop (S i) l)). rewrite above_none by done.
    rewrite app_nil_r. etrans; [apply length_filter|].
    rewrite length_take. lia.
  - by rewrite lt_irrefl.
Qed.

Section AnalyzeSizes.

Context {World : Type}.
Variable RSI_calculate : list number -> list number.
Variable MACD_calculate : list number -> list macd_entry.
Variable axios_get :
  string -> string * interval * nat -> World -> http * World.
Variable storeAnalysis : analysis -> World -> World.

Lemma analyzeSymbols_symbols (tfs : list string) (candidates : list ticker) :
  forall acc w analyzed w',
  analyzeSymbols RSI_calculate MACD_calculate axios_get storeAnalysis
    tfs candidates acc w = (Returns analyzed, w') ->
  exists new,
    analyzed = acc ++ new
    /\ (e_symbol <$> new) `sublist_of` (symbol <$> candidates).
Proof.
  induction candidates as [|s rest IH]; intros acc w analyzed w' Hrun.
  - cbn in Hrun. inversion Hrun; subst. exists []. by rewrite app_nil_r.
  - cbn [analyzeSymbols] in Hrun. unfold bind at 1 in Hrun.
    destruct (analyzeTimeframes _ _ _ _ s tfs ∅ w) as [[|m] w1]; [done|].
    case_decide as Hsize.
    + apply IH in Hrun as (new & -> & Hsub). exists new. split; [done|].
      cbn [fmap list_fmap]. by apply sublist_cons.
    + apply IH in Hrun as (new & -> & Hsub).
      exists (Entry (symbol s) (volume_24h s) m (average m) :: new).
      split; [by rewrite <- app_assoc|].
      cbn [fmap list_fmap e_symbol]. by apply sublist_skip.
Qed.

(** X20.
    The analyze handler (part_004, 198-266).  Whenever it answers, [total]
    is at most 100 and at most the number of candidate rows, the [symbols]
    list has at most [total] elements, and it has at most [limit] elements
    when [limit] is a natural number. *)
Theorem analyze_response_sizes (tfs : list string) (limit : number)
    (minScore : option number) (candidates : list ticker) (w w' : World)
    (r : response) :
  analyze RSI_calculate MACD_calculate axios_get storeAnalysis
    tfs limit minScore candidates w = (Returns r, w') ->
  (total r <= 100)%nat /\ (total r <= length candidates)%nat
  /\ (length (symbols r) <= total r)%nat
  /\ (forall n : nat, limit = of_nat n -> (length (symbols r) <= n)%nat).
Proof.
  intros Hrun. unfold analyze, bind in Hrun.
  destruct (analyzeSymbols _ _ _ _ tfs _ [] w) as [[|analyzed] w1] eqn:Eloop;
    [done|].
  unfold ret in Hrun. inversion Hrun; subst r w1. clear Hrun.
  apply analyzeSymbols_symbols in Eloop as (new & -> & Hsub).
  cbn [app]. apply sublist_length in Hsub.
  rewrite !length_fmap, length_take, js_sort_perm in Hsub.
  destruct (respond_sizes minScore limit new) as [H1 H2].
  split; [lia|]. split; [lia|]. split; [done|].
  intros n ->. unfold respond. cbn [symbols].
  rewrite slice_to_of_nat, length_take. lia.
Qed.

(** X21.
    The analyze handler (part_004, 198-266).  When the candidate rows have
    distinct symbols, as the UNIQUE column of futures_tickers gives them,
    no symbol occurs twice in the response. *)
Theorem analyze_symbols_distinct (tfs : list string) (limit : number)
    (minScore : option number) (candidates : list ticker) (w w' : World)
    (r : response) :
  NoDup (symbol <$> candidates) ->
  analyze RSI_calculate MACD_calculate axios_get storeAnalysis
    tfs limit minScore candidates w = (Returns r, w') ->
  NoDup (e_symbol <$> symbols r).
Proof.
  intros Hnd Hrun. unfold analyze, bind in Hrun.
  destruct (analyzeSymbols _ _ _ _ tfs _ [] w) as [[|analyzed] w1] eqn:Eloop;
    [done|].
  unfold ret in Hrun. inversion Hrun; subst r w1. clear Hrun.
  apply analyzeSymbols_symbols in Eloop as (new & -> & Hsub).
  cbn [app]. apply respond_NoDup.
  eapply sublist_NoDup; [|exact Hsub].
  eapply sublist_NoDup; [|apply fmap_sublist, sublist_take].
  by rewrite js_sort_perm.
Qed.

(** X22.
    The analyze handler (part_004, 198-266), the sort by volume and the
    cut at 100 together.  When the candidate volumes are finite, every
    symbol of the response is one of the candidates, carries its volume, and
    fewer than 100 candidates have a strictly larger volume: only the top
    100 by volume are analyzed. *)
Theorem analyze_top_volume (tfs : list string) (limit : number)
    (minScore : option number) (candidates : list ticker) (w w' : World)
    (r : response) :
  Forall (fun s => finite (volume_24h s)) candidates ->
  analyze RSI_calculate MACD_calculate axios_get storeAnalysis
    tfs limit minScore candidates w = (Returns r, w') ->
  forall e, e ∈ symbols r ->
    exists s, s ∈ candidates
      /\ e_symbol e = symbol s /\ e_volume_24h e = volume_24h s
      /\ (length (above s candidates) < 100)%nat.
Proof.
  intros Hfin Hrun e He. unfold analyze, bind in Hrun.
  destruct (analyzeSymbols _ _ _ _ tfs _ [] w) as [[|analyzed] w1] eqn:Eloop;
    [done|].
  unfold ret in Hrun. inversion Hrun; subst r w1. clear Hrun.
  apply respond_subseteq in He.
  apply analyzeSymbols_pushed in Eloop as (new & -> & Hnew).
  cbn [app] in He. rewrite Forall_forall in Hnew.
  destruct (Hnew e He) as (_ & _ & s & w0 & Hin & Hsym & Hvol & _).
  exists s. apply elem_of_take in Hin as (i & Hi & Hlt).
  split.
  { apply list_elem_of_lookup_2 in Hi. by rewrite js_sort_perm in Hi. }
  split; [done|]. split; [done|].
  pose proof (above_sorted _ i s (js_sort_volume_sorted _ Hfin) Hi) as Hab.
  unfold above in *.
  rewrite (Permutation_length
             (filter_Permutation _ _ _ (js_sort_perm _ candidates))) in Hab.
  lia.
Qed.

End AnalyzeSizes.

Lemma analyze_top_volume_witness :
  exists r,
    demo_analyze ["15m"]%string [Ticker "U" (Fin 2); Ticker "V" (Fin 7)] tt
    = (Returns r, tt)
    /\ forall e, e ∈ symbols r ->
         exists s, s ∈ [Ticker "U" (Fin 2); Ticker "V" (Fin 7)]
                   /\ e_symbol e = symbol s.
Proof.
  destruct (demo_analyze ["15m"]%string
              [Ticker "U" (Fin 2); Ticker "V" (Fin 7)] tt)
    as [[|r] []] eqn:E; [vm_compute in E; discriminate E|].
  exists r. split; [reflexivity|]. intros e He.
  destruct (analyze_top_volume (fun _ => []) (fun _ => []) demo_get
              (fun _ w => w) ["15m"]%string (Fin 50) None
              [Ticker "U" (Fin 2); Ticker "V" (Fin 7)] tt tt r
              ltac:(repeat constructor) E e He) as (s & Hs & Hsym & _).
  exists s. split; [exact Hs | exact Hsym].
Defined.

Lemma analyze_symbols_distinct_witness :
  exists r,
    demo_analyze ["15m"]%string [Ticker "P" (Fin 2); Ticker "Q" (Fin 7)] tt
    = (Returns r, tt)
    /\ NoDup (e_symbol <$> symbols r).
Proof.
  destruct (demo_analyze ["15m"]%string
              [Ticker "P" (Fin 2); Ticker "Q" (Fin 7)] tt)
    as [[|r] []] eqn:E; [vm_compute in E; discriminate E|].
  exists r. split; [reflexivity|].
  apply (analyze_symbols_distinct (fun _ => []) (fun _ => []) demo_get
           (fun _ w => w) ["15m"]%string (Fin 50) None
           [Ticker "P" (Fin 2); Ticker "Q" (Fin 7)] tt tt r); [|exact E].
  apply (bool_decide_unpack _). vm_compute. exact I.
Defined.

Lemma analyze_response_sizes_witness :
  exists r,
    demo_analyze ["15m"]%string [Ticker "A" (Fin 9); Ticker "B" (Fin 5)] tt
    = (Returns r, tt)
    /\ (total r <= 100)%nat /\ (length (symbols r) <= total r)%nat.
Proof.
  destruct (demo_analyze ["15m"]%string
              [Ticker "A" (Fin 9); Ticker "B" (Fin 5)] tt)
    as [[|r] []] eqn:E; [vm_compute in E; discriminate E|].
  exists r. split; [reflexivity|].
  destruct (analyze_response_sizes (fun _ => []) (fun _ => []) demo_get
              (fun _ w => w) ["15m"]%string (Fin 50) None
              [Ticker "A" (Fin 9); Ticker "B" (Fin 5)] tt tt r E)
    as (H1 & _ & H3 & _).
  split; [exact H1 | exact H3].
Defined.

(** ** The ticker table *)

Lemma upsertTickers_snoc now items t tbl :
  upsertTickers now (items ++ [t]) tbl
  = upsert_one now (upsertTickers now items tbl) t.
Proof. unfold upsertTickers. by rewrite foldl_app. Qed.

Lemma last_for_snoc k items t :
  last_for k (items ++ [t])
  = if decide (raw_symbol t = k) then Some t else last_for k items.
Proof.
  unfold last_for. rewrite filter_app, filter_cons, filter_nil.
  case_decide.
  - by rewrite last_snoc.
  - by rewrite app_nil_r.
Qed.

Lemma upsertTickers_lookup now items tbl k :
  upsertTickers now items tbl !! k
  = match last_for k items with
    | Some t => if ends_with k "USDT" then Some (row_of now t) else tbl !! k
    | None => tbl !! k
    end.
Proof.
  induction items as [|t items IH] using rev_ind; [done|].
  rewrite upsertTickers_snoc, last_for_snoc. unfold upsert_one.
  case_decide as Hk.
  - subst k. destruct (ends_with (raw_symbol t) "USDT") eqn:E.
    + by rewrite lookup_insert_eq.
    + rewrite IH. by destruct (last_for (raw_symbol t) items).
  - destruct (ends_with (raw_symbol t) "USDT");
      [rewrite lookup_insert_ne by done|]; exact IH.
Qed.

(** X23.
    upsertTickers (part_004, 55-75), for a feed of objects.  After the
    loop the row of a symbol [k] that ends in USDT and occurs in the feed
    holds the price, change and volume of the LAST element of the feed with
    that symbol and the time of the call; every other row is as it was
    before. *)
Theorem upsertTickers_last_write_wins (now : string)
    (items : list raw_ticker) (tbl : gmap string ticker_row) (k : string) :
  upsertTickers now items tbl !! k
  = match last_for k items with
    | Some t => if ends_with k "USDT" then Some (row_of now t) else tbl !! k
    | None => tbl !! k
    end.
Proof. apply upsertTickers_lookup. Qed.

Lemma upsert_one_dom now tbl t :
  dom (upsert_one now tbl t)
  = dom tbl ∪ (if ends_with (raw_symbol t) "USDT"
               then {[raw_symbol t]} else ∅).
Proof.
  unfold upsert_one. destruct (ends_with (raw_symbol t) "USDT").
  - by rewrite dom_insert_L, (comm_L (∪)).
  - by rewrite (right_id_L ∅ (∪)).
Qed.

Lemma upsertTickers_dom now items : forall tbl,
  dom (upsertTickers now items tbl)
  = dom tbl
    ∪ list_to_set (filter (fun k => ends_with k "USDT" = true)
                          (raw_symbol <$> items)).
Proof.
  induction items as [|t items IH]; intros tbl.
  - cbn. by rewrite (right_id_L ∅ (∪)).
  - change (upsertTickers now (t :: items) tbl)
      with (upsertTickers now items (upsert_one now tbl t)).
    rewrite IH, upsert_one_dom. cbn [fmap list_fmap]. rewrite filter_cons.
    destruct (ends_with (raw_symbol t) "USDT") eqn:E.
    + rewrite decide_True by done. cbn [list_to_set].
      by rewrite (assoc_L (∪)).
    + rewrite decide_False by (by intros [=]).
      by rewrite (right_id_L ∅ (∪)).
Qed.

(** X24.
    upsertTickers (part_004, 55-75), for a feed of objects.  The symbols
    of the table after the call are those it had before together with the
    symbols of the feed that end in USDT: no row is ever removed and no
    other symbol gets a row. *)
Theorem upsertTickers_keys (now : string) (items : list raw_ticker)
    (tbl : gmap string ticker_row) :
  dom (upsertTickers now items tbl)
  = dom tbl
    ∪ list_to_set (filter (fun k => ends_with k "USDT" = true)
                          (raw_symbol <$> items)).
Proof. apply upsertTickers_dom. Qed.

(** X25.
    upsertTickers (part_004, 55-75), for a feed of objects.  Storing the
    same feed a second time overwrites the first pass completely: the table
    is the one a single call at the later time leaves. *)
Theorem upsertTickers_resync (now1 now2 : string) (items : list raw_ticker)
    (tbl : gmap string ticker_row) :
  upsertTickers now2 items (upsertTickers now1 items tbl)
  = upsertTickers now2 items tbl.
Proof.
  apply map_eq. intros k. rewrite !upsertTickers_lookup.
  destruct (last_for k items); [|done].
  by destruct (ends_with k "USDT").
Qed.

Lemma upsert_one_size now tbl t :
  (size tbl <= size (upsert_one now tbl t) <= S (size tbl))%nat.
Proof.
  unfold upsert_one. destruct (ends_with (raw_symbol t) "USDT"); [|lia].
  destruct (tbl !! raw_symbol t) eqn:E.
  - rewrite map_size_insert_Some by (by eexists). lia.
  - rewrite map_size_insert_None by done. lia.
Qed.

Lemma upsertFeed_objects now items : forall tbl,
  upsertFeed now (Some <$> items) tbl
  = (Returns tt, upsertTickers now items tbl).
Proof.
  induction items as [|t items IH]; intros tbl; [done|].
  cbn [fmap list_fmap upsertFeed]. by rewrite IH.
Qed.

Lemma upsertFeed_null now before after : forall tbl,
  upsertFeed now ((Some <$> before) ++ None :: after) tbl
  = (Throws, upsertTickers now before tbl).
Proof.
  induction before as [|t before IH]; intros tbl; [done|].
  cbn [fmap list_fmap app upsertFeed]. by rewrite IH.
Qed.

Lemma upsertFeed_grows now items : forall tbl,
  dom tbl ⊆ dom (upsertFeed now items tbl).2
  /\ (size tbl <= size (upsertFeed now items tbl).2)%nat.
Proof.
  induction items as [|[t|] items IH]; intros tbl; cbn [upsertFeed]; try done.
  destruct (IH (upsert_one now tbl t)) as [Hdom Hsize].
  pose proof (upsert_one_size now tbl t). split; [|lia].
  etrans; [|exact Hdom]. rewrite upsert_one_dom. apply union_subseteq_l.
Qed.

(** X26.
    syncTickers (part_004, 77-85) with fetchTickers (49-53) and the loop of
    upsertTickers (55-75).  The table never shrinks or loses a symbol.  A
    rejected request gives the count 0 and leaves the table as it was; a
    feed of objects gives the length of the feed as the count, whatever
    number of rows was written; and a feed with a null element also gives
    the count 0, although the rows of the elements before the first null
    have been written. *)
Theorem syncTickers_count (resp : tickers_http) (now : string)
    (tbl : gmap string ticker_row) :
  let r := syncTickers resp now tbl in
  (dom tbl ⊆ dom r.2 /\ (size tbl <= size r.2)%nat)
  /\ (resp = TRejected -> r = (0%nat, tbl))
  /\ (forall items,
        fetchTickers resp = Returns (Some <$> items) ->
        r = (length items, upsertTickers now items tbl))
  /\ (forall before after,
        fetchTickers resp = Returns ((Some <$> before) ++ None :: after) ->
        r = (0%nat, upsertTickers now before tbl)).
Proof.
  split; [|split; [|split]].
  - unfold syncTickers. destruct (fetchTickers resp) as [|feed]; [done|].
    pose proof (upsertFeed_grows now feed tbl) as H.
    by destruct (upsertFeed now feed tbl) as [[|[]] tbl'].
  - by intros ->.
  - intros items Hf. unfold syncTickers.
    by rewrite Hf, upsertFeed_objects, length_fmap.
  - intros before after Hf. unfold syncTickers.
    by rewrite Hf, upsertFeed_null.
Qed.

